(** * say-anything-bot: the per-channel game session ([Game]) of
    [say_anything.py], embedded as state-passing functions, with the
    properties of its round life cycle, answer selection and voting. *)

From Stdlib Require Import ZArith Lia Ascii String List.
From stdpp Require Import base tactics option list relations.

Import ListNotations.
#[local] Set Warnings "-clear-no-such-hyp".
Local Open Scope Z_scope.
Local Open Scope list_scope.

(** ** Data *)

(** A player is a Discord [User] or [Member]; both compare and hash by their
    user id, which is all the session ever looks at. *)
Definition Player := nat.

(** The keycap emoji of the two vote reactions; every other emoji name. *)
Inductive Emoji :=
| keycap_1
| keycap_2
| thumbs_up
| other_emoji (name : string).

(** [discord.Message] as far as the session reads it. *)
Record Message := {
  author : Player;
  content : string;
  mentions : list Player
}.

(** [discord.RawReactionActionEvent]. [member] is optional in the API. *)
Record ReactionEvent := {
  member : option Player;
  emoji : Emoji;
  message_id : nat
}.

(** ** Python dictionaries

    A [dict] keeps its keys in insertion order; assigning to a present key
    keeps the key's place. *)
Section Dict.
Context {K V : Type} `{EqDecision K}.

Definition dict := list (K * V).

Fixpoint dict_get (k : K) (d : dict) : option V :=
  match d with
  | [] => None
  | (k', v) :: d' => if decide (k = k') then Some v else dict_get k d'
  end.

Fixpoint dict_set (k : K) (v : V) (d : dict) : dict :=
  match d with
  | [] => [(k, v)]
  | (k', v') :: d' =>
      if decide (k = k') then (k', v) :: d' else (k', v') :: dict_set k v d'
  end.

Definition dict_keys (d : dict) : list K := map fst d.

Definition dict_mem (k : K) (d : dict) : bool :=
  match dict_get k d with Some _ => true | None => false end.
End Dict.
Arguments dict : clear implicits.

(** ** Text

    Message text is a [string] whose characters stand for code points below
    256. *)

(** [str.isspace] on one character. *)
Definition py_isspace (c : ascii) : bool :=
  let n := nat_of_ascii c in
  ((9 <=? n) && (n <=? 13) || (28 <=? n) && (n <=? 32)
   || (n =? 133) || (n =? 160))%nat.

Fixpoint lstrip (s : string) : string :=
  match s with
  | EmptyString => EmptyString
  | String c s' => if py_isspace c then lstrip s' else s
  end.

Fixpoint rstrip (s : string) : string :=
  match s with
  | EmptyString => EmptyString
  | String c s' =>
      match rstrip s' with
      | EmptyString => if py_isspace c then EmptyString else String c EmptyString
      | r => String c r
      end
  end.

(** [str.strip()] *)
Definition strip (s : string) : string := rstrip (lstrip s).

Definition is_decimal (c : ascii) : bool :=
  let n := nat_of_ascii c in ((48 <=? n) && (n <=? 57))%nat.

(** The numeric characters below 256: the decimal digits, the superscripts
    one, two and three, and the three vulgar fractions. *)
Definition is_numeric_char (c : ascii) : bool :=
  let n := nat_of_ascii c in
  (is_decimal c || (n =? 178) || (n =? 179) || (n =? 185)
   || (188 <=? n) && (n <=? 190))%nat.

Fixpoint string_forallb (f : ascii -> bool) (s : string) : bool :=
  match s with
  | EmptyString => true
  | String c s' => f c && string_forallb f s'
  end.

(** [str.isnumeric()] is false on the empty string. *)
Definition isnumeric (s : string) : bool :=
  match s with
  | EmptyString => false
  | _ => string_forallb is_numeric_char s
  end.

Fixpoint decimal_value (acc : Z) (s : string) : Z :=
  match s with
  | EmptyString => acc
  | String c s' =>
      decimal_value (10 * acc + Z.of_nat (nat_of_ascii c - 48)) s'
  end.

(** [int(s)] for a string that passed [isnumeric]: a superscript or a
    fraction is numeric but no decimal digit, and [int] raises ValueError on
    it ([None] here). The interpreter's limit on the number of digits is left
    out. *)
Definition py_int (s : string) : option Z :=
  if string_forallb is_decimal s then Some (decimal_value 0 s) else None.

(** [s[n:]] *)
Fixpoint string_drop (n : nat) (s : string) : string :=
  match n, s with
  | O, _ => s
  | S n', String _ s' => string_drop n' s'
  | S _, EmptyString => EmptyString
  end.

(** [s.startswith(p)] *)
Definition startswith (s p : string) : bool := String.prefix p s.

(** Truth value of an optional string: [None] and the empty string are
    false. *)
Definition truthy_str (o : option string) : bool :=
  match o with
  | Some (String _ _) => true
  | _ => false
  end.

(** Truth value of an optional list: [None] and the empty list are false. *)
Definition truthy_list {A} (o : option (list A)) : bool :=
  match o with
  | Some (_ :: _) => true
  | _ => false
  end.

(** ** The session *)

(** The fields of [class Game]. The class-level dictionaries are only ever
    written after [start_round] has replaced them by fresh ones on the
    instance, so a session never shares them with another. *)
Record Game := {
  players : list Player;
  scores : dict Player Z;
  setter_index : Z;
  question_setter : option Player;
  question : option string;
  answers : dict Player string;
  answer_selection_list : option (list (Player * string));
  correct_answer : option Player;
  vote_messages : dict nat Player;
  votes : dict Player Z
}.

(** What the session sends to Discord. The wording of a message is left
    out; the data it is built from is kept. *)
Inductive Notice :=
| PlayersAdded (new : list Player)
| SetYourQuestion (setter : Player)
| WhatAnswer (setter : Player) (q : option string)
| SelectTheAnswer (q : option string) (pool : list (Player * string))
| VotePrompt (idx : nat) (answer : string)
| Reveal (answer : string) (by_whom : Player)
| ScoringNotImplemented.

Inductive Output :=
| ChannelSend (id : nat) (n : Notice)
| DirectMessage (to : Player) (n : Notice)
| ReactPrompt (id : nat) (e : Emoji)
| ReactMessage (m : Message) (e : Emoji).

(** The session together with its surroundings: what was sent so far (oldest
    first), the id the next channel message will get, and the random number
    generator as the stream of its future draws. *)
Record World := {
  game : Game;
  sent : list Output;
  next_message_id : nat;
  rng : nat -> nat;
  rng_pos : nat
}.

Inductive Exn := IndexError | KeyError | StopIteration | ValueError.

Inductive Res (A : Type) :=
| Ok (a : A)
| Raise (e : Exn).
Arguments Ok {A} a.
Arguments Raise {A} e.

(** A method call: it may change the world and then returns or raises; what
    it changed before raising stays changed. *)
Definition M (A : Type) := World -> World * Res A.

Definition ret {A} (a : A) : M A := fun w => (w, Ok a).

Definition bind {A B} (m : M A) (k : A -> M B) : M B :=
  fun w => match m w with
           | (w', Ok a) => k a w'
           | (w', Raise e) => (w', Raise e)
           end.

Definition raise {A} (e : Exn) : M A := fun w => (w, Raise e).

Notation "x <- m ;; k" := (bind m (fun x => k))
  (at level 100, m at next level, right associativity).
Notation "m ;;; k" := (bind m (fun _ => k))
  (at level 100, right associativity).

Definition gets {A} (f : Game -> A) : M A := fun w => (w, Ok (f (game w))).

Definition modify (f : Game -> Game) : M unit :=
  fun w => ({| game := f (game w); sent := sent w;
               next_message_id := next_message_id w;
               rng := rng w; rng_pos := rng_pos w |}, Ok tt).

Definition emit (o : Output) : M unit :=
  fun w => ({| game := game w; sent := sent w ++ [o];
               next_message_id := next_message_id w;
               rng := rng w; rng_pos := rng_pos w |}, Ok tt).

(** [await self.channel.send(...)]: the message posted gets a fresh id. *)
Definition channel_send (n : Notice) : M nat :=
  fun w => ({| game := game w;
               sent := sent w ++ [ChannelSend (next_message_id w) n];
               next_message_id := S (next_message_id w);
               rng := rng w; rng_pos := rng_pos w |},
            Ok (next_message_id w)).

Fixpoint for_each {A} (l : list A) (body : A -> M unit) : M unit :=
  match l with
  | [] => ret tt
  | a :: l' => body a ;;; for_each l' body
  end.

(** *** [random.shuffle] *)

(** [x[i], x[j] = x[j], x[i]] *)
Definition swap {A} (i j : nat) (x : list A) : list A :=
  match x !! i, x !! j with
  | Some a, Some b => <[j:=a]> (<[i:=b]> x)
  | _, _ => x
  end.

(** [for i in reversed(range(1, len(x))): j = randbelow(i + 1); swap].
    A call of [randbelow (i + 1)] takes the next draw of the stream modulo
    [i + 1]. *)
Fixpoint shuffle_loop {A} (i : nat) (x : list A) (draws : nat -> nat)
    (pos : nat) : list A * nat :=
  match i with
  | O => (x, pos)
  | S i' => shuffle_loop i' (swap i (draws pos mod (S i))%nat x) draws (S pos)
  end.

Definition shuffle {A} (x : list A) : M (list A) :=
  fun w =>
    let '(x', pos) := shuffle_loop (length x - 1)%nat x (rng w) (rng_pos w) in
    ({| game := game w; sent := sent w;
        next_message_id := next_message_id w;
        rng := rng w; rng_pos := pos |}, Ok x').

(** *** Field updates *)

Definition set_players (v : list Player) (g : Game) : Game :=
  {| players := v; scores := scores g; setter_index := setter_index g;
     question_setter := question_setter g; question := question g;
     answers := answers g; answer_selection_list := answer_selection_list g;
     correct_answer := correct_answer g; vote_messages := vote_messages g;
     votes := votes g |}.

Definition set_scores (v : dict Player Z) (g : Game) : Game :=
  {| players := players g; scores := v; setter_index := setter_index g;
     question_setter := question_setter g; question := question g;
     answers := answers g; answer_selection_list := answer_selection_list g;
     correct_answer := correct_answer g; vote_messages := vote_messages g;
     votes := votes g |}.

Definition set_setter_index (v : Z) (g : Game) : Game :=
  {| players := players g; scores := scores g; setter_index := v;
     question_setter := question_setter g; question := question g;
     answers := answers g; answer_selection_list := answer_selection_list g;
     correct_answer := correct_answer g; vote_messages := vote_messages g;
     votes := votes g |}.

Definition set_question_setter (v : option Player) (g : Game) : Game :=
  {| players := players g; scores := scores g; setter_index := setter_index g;
     question_setter := v; question := question g;
     answers := answers g; answer_selection_list := answer_selection_list g;
     correct_answer := correct_answer g; vote_messages := vote_messages g;
     votes := votes g |}.

Definition set_question (v : option string) (g : Game) : Game :=
  {| players := players g; scores := scores g; setter_index := setter_index g;
     question_setter := question_setter g; question := v;
     answers := answers g; answer_selection_list := answer_selection_list g;
     correct_answer := correct_answer g; vote_messages := vote_messages g;
     votes := votes g |}.

Definition set_answers (v : dict Player string) (g : Game) : Game :=
  {| players := players g; scores := scores g; setter_index := setter_index g;
     question_setter := question_setter g; question := question g;
     answers := v; answer_selection_list := answer_selection_list g;
     correct_answer := correct_answer g; vote_messages := vote_messages g;
     votes := votes g |}.

Definition set_answer_selection_list (v : option (list (Player * string)))
    (g : Game) : Game :=
  {| players := players g; scores := scores g; setter_index := setter_index g;
     question_setter := question_setter g; question := question g;
     answers := answers g; answer_selection_list := v;
     correct_answer := correct_answer g; vote_messages := vote_messages g;
     votes := votes g |}.

Definition set_correct_answer (v : option Player) (g : Game) : Game :=
  {| players := players g; scores := scores g; setter_index := setter_index g;
     question_setter := question_setter g; question := question g;
     answers := answers g; answer_selection_list := answer_selection_list g;
     correct_answer := v; vote_messages := vote_messages g;
     votes := votes g |}.

Definition set_vote_messages (v : dict nat Player) (g : Game) : Game :=
  {| players := players g; scores := scores g; setter_index := setter_index g;
     question_setter := question_setter g; question := question g;
     answers := answers g; answer_selection_list := answer_selection_list g;
     correct_answer := correct_answer g; vote_messages := v;
     votes := votes g |}.

Definition set_votes (v : dict Player Z) (g : Game) : Game :=
  {| players := players g; scores := scores g; setter_index := setter_index g;
     question_setter := question_setter g; question := question g;
     answers := answers g; answer_selection_list := answer_selection_list g;
     correct_answer := correct_answer g; vote_messages := vote_messages g;
     votes := v |}.

(** [Game(channel)] *)
Definition new_game : Game :=
  {| players := []; scores := []; setter_index := -1;
     question_setter := None; question := None; answers := [];
     answer_selection_list := None; correct_answer := None;
     vote_messages := []; votes := [] |}.

(** [l[i]] with Python's negative indices; [None] stands for IndexError. *)
Definition py_index {A} (l : list A) (i : Z) : option A :=
  let n := Z.of_nat (length l) in
  if (0 <=? i) && (i <? n) then l !! Z.to_nat i
  else if (- n <=? i) && (i <? 0) then l !! Z.to_nat (n + i)
  else None.

Definition len {A} (l : list A) : Z := Z.of_nat (length l).

(** [enumerate(l, start=n)] *)
Fixpoint enumerate {A} (n : nat) (l : list A) : list (nat * A) :=
  match l with
  | [] => []
  | a :: l' => (n, a) :: enumerate (S n) l'
  end.

(** *** The methods of [Game] *)

Definition start_round : M unit :=
  setter <- gets question_setter ;;
  match setter with
  | Some _ => ret tt
  | None =>
      modify (fun g => set_setter_index (setter_index g + 1) g) ;;;
      idx <- gets setter_index ;;
      n <- gets (fun g => len (players g)) ;;
      (if idx >=? n then modify (set_setter_index 0) else ret tt) ;;;
      idx <- gets setter_index ;;
      ps <- gets players ;;
      match py_index ps idx with
      | None => raise IndexError
      | Some p =>
          modify (set_question_setter (Some p)) ;;;
          modify (set_question None) ;;;
          modify (set_answers []) ;;;
          modify (set_correct_answer None) ;;;
          modify (set_answer_selection_list None) ;;;
          modify (set_vote_messages []) ;;;
          modify (set_votes []) ;;;
          channel_send (SetYourQuestion p) ;;;
          ret tt
      end
  end.

Fixpoint add_players_loop (ps : list Player) (mentioned : list Player)
    : M (list Player) :=
  match ps with
  | [] => ret mentioned
  | player :: rest =>
      present <- gets (fun g => bool_decide (player ∈ players g)) ;;
      if (present : bool) then add_players_loop rest mentioned
      else
        modify (fun g => set_players (players g ++ [player]) g) ;;;
        modify (fun g => set_scores (dict_set player 0 (scores g)) g) ;;;
        add_players_loop rest (mentioned ++ [player])
  end.

Definition add_players (ps : list Player) : M unit :=
  mentioned <- add_players_loop ps [] ;;
  channel_send (PlayersAdded mentioned) ;;;
  setter <- gets question_setter ;;
  n <- gets (fun g => len (players g)) ;;
  if negb (bool_decide (is_Some setter)) && (n >=? 2) then start_round
  else ret tt.

Definition request_answers : M unit :=
  setter <- gets question_setter ;;
  match setter with
  | None => ret tt
  | Some s =>
      q <- gets question ;;
      ps <- gets players ;;
      for_each ps (fun player =>
        if bool_decide (player = s) then ret tt
        else emit (DirectMessage player (WhatAnswer s q)))
  end.

Definition request_answer_selection : M unit :=
  setter <- gets question_setter ;;
  match setter with
  | None => ret tt
  | Some s =>
      items <- gets answers ;;
      pool <- shuffle items ;;
      modify (set_answer_selection_list (Some pool)) ;;;
      q <- gets question ;;
      emit (DirectMessage s (SelectTheAnswer q pool))
  end.

Definition post_vote_prompt (entry : nat * (Player * string)) : M unit :=
  let '(idx, (user, answer)) := entry in
  message <- channel_send (VotePrompt idx answer) ;;
  modify (fun g => set_votes (dict_set user 0 (votes g)) g) ;;;
  modify (fun g => set_vote_messages (dict_set message user (vote_messages g)) g) ;;;
  emit (ReactPrompt message keycap_1) ;;;
  emit (ReactPrompt message keycap_2).

Definition select_answer (index : Z) : M unit :=
  if index <? 1 then ret tt
  else
    selection_list <- gets (fun g => default [] (answer_selection_list g)) ;;
    if index >? len selection_list then ret tt
    else
      match py_index selection_list (index - 1) with
      | None => raise IndexError
      | Some (chosen, _) =>
          modify (set_correct_answer (Some chosen)) ;;;
          modify (set_answer_selection_list None) ;;;
          items <- gets answers ;;
          shuffled <- shuffle items ;;
          for_each (enumerate 1 shuffled) post_vote_prompt
      end.

(** The first voter, in the order of the dictionary, with less than two
    points spent. *)
Definition unfinished_voter (vs : dict Player Z) : option Player :=
  find (fun voter =>
          match dict_get voter vs with Some n => n <? 2 | None => false end)
       (dict_keys vs).

(** Two points for the second keycap, one otherwise. *)
Definition credit (e : Emoji) : Z :=
  match e with
  | keycap_2 => 2
  | _ => 1
  end.

(** [next(m for m in self.vote_messages if m.id == event.message_id)] has no
    default: with no such message it raises StopIteration, which leaves the
    coroutine as a RuntimeError. A message object is never false, so the
    test that follows it in the source never fires. *)
Definition handle_reaction (event : ReactionEvent) : M unit :=
  let player := member event in
  chosen <- gets correct_answer ;;
  match chosen with
  | None => ret tt
  | Some chosen =>
      match emoji event with
      | thumbs_up | other_emoji _ => ret tt
      | _ =>
          match player with
          | None => ret tt
          | Some player =>
              vs <- gets votes ;;
              if negb (dict_mem player vs) then ret tt
              else
                vm <- gets vote_messages ;;
                match find (fun id => Nat.eqb id (message_id event))
                           (dict_keys vm) with
                | None => raise StopIteration
                | Some message =>
                    match dict_get message vm, dict_get player vs with
                    | Some _, Some spent =>
                        modify (fun g =>
                          set_votes (dict_set player (spent + credit (emoji event))
                                              (votes g)) g) ;;;
                        vs' <- gets votes ;;
                        match unfinished_voter vs' with
                        | Some _ => ret tt
                        | None =>
                            ans <- gets answers ;;
                            match dict_get chosen ans with
                            | None => raise KeyError
                            | Some text =>
                                channel_send (Reveal text chosen) ;;;
                                modify (set_question_setter None) ;;;
                                channel_send ScoringNotImplemented ;;;
                                ret tt
                            end
                        end
                    | _, _ => raise KeyError
                    end
                end
          end
      end
  end.

Definition handle_channel_message (message : Message) : M unit :=
  if startswith (content message) "!nextround" then start_round
  else if startswith (content message) "!addplayers " then
    add_players (mentions message)
  else if startswith (content message) "!question " then
    q <- gets question ;;
    if truthy_str q then ret tt
    else
      setter <- gets question_setter ;;
      if negb (bool_decide (Some (author message) = setter)) then ret tt
      else
        modify (set_question (Some (strip (string_drop 10 (content message))))) ;;;
        request_answers
  else ret tt.

Definition handle_player_message (message : Message) : M unit :=
  q <- gets question ;;
  if negb (truthy_str q) then ret tt
  else
    setter <- gets question_setter ;;
    if bool_decide (Some (author message) = setter) then
      pool <- gets answer_selection_list ;;
      if negb (truthy_list pool) then ret tt
      else if isnumeric (content message) then
        match py_int (content message) with
        | None => raise ValueError
        | Some index => select_answer index
        end
      else ret tt
    else
      pool <- gets answer_selection_list ;;
      chosen <- gets correct_answer ;;
      if truthy_list pool || bool_decide (is_Some chosen) then ret tt
      else
        modify (fun g =>
          set_answers (dict_set (author message) (strip (content message))
                                (answers g)) g) ;;;
        emit (ReactMessage message thumbs_up) ;;;
        na <- gets (fun g => len (answers g)) ;;
        np <- gets (fun g => len (players g)) ;;
        if na =? np - 1 then request_answer_selection else ret tt.

(** ** Runs of a session *)

(** The four ways the dispatcher drives a session. *)
Inductive Event :=
| Join (ps : list Player)
| ChannelMessage (m : Message)
| PrivateMessage (m : Message)
| Reaction (e : ReactionEvent).

Definition step (ev : Event) : M unit :=
  match ev with
  | Join ps => add_players ps
  | ChannelMessage m => handle_channel_message m
  | PrivateMessage m => handle_player_message m
  | Reaction e => handle_reaction e
  end.

(** The world after an event; an exception ends the handler and the session
    lives on. *)
Definition exec (ev : Event) (w : World) : World := fst (step ev w).

Definition run (evs : list Event) (w : World) : World :=
  fold_left (fun w ev => exec ev w) evs w.

(** The exceptions raised along a run, oldest first. *)
Fixpoint raised (evs : list Event) (w : World) : list Exn :=
  match evs with
  | [] => []
  | ev :: evs' =>
      match step ev w with
      | (w', Ok _) => raised evs' w'
      | (w', Raise e) => e :: raised evs' w'
      end
  end.

(** A session fresh from [Game(channel)], in any surroundings. *)
Definition fresh (w : World) : Prop := game w = new_game.

Definition new_world (draws : nat -> nat) : World :=
  {| game := new_game; sent := []; next_message_id := 0;
     rng := draws; rng_pos := 0 |}.

Inductive reachable : World -> Prop :=
| reachable_fresh w : fresh w -> reachable w
| reachable_step w ev : reachable w -> reachable (exec ev w).

(** ** Pure descriptions of what the loops compute *)

Definition with_game (g : Game) (w : World) : World :=
  {| game := g; sent := sent w; next_message_id := next_message_id w;
     rng := rng w; rng_pos := rng_pos w |}.

(** The cursor [start_round] moves to. *)
Definition next_index (g : Game) : Z :=
  if setter_index g + 1 >=? len (players g) then 0 else setter_index g + 1.

(** The session as [start_round] leaves it with setter [p]. *)
Definition round_reset (p : Player) (g : Game) : Game :=
  {| players := players g; scores := scores g;
     setter_index := next_index g;
     question_setter := Some p; question := None; answers := [];
     answer_selection_list := None; correct_answer := None;
     vote_messages := []; votes := [] |}.

(** The session after the loop of [add_players]. *)
Fixpoint joined (ps : list Player) (g : Game) : Game :=
  match ps with
  | [] => g
  | p :: rest =>
      if bool_decide (p ∈ players g) then joined rest g
      else joined rest
             (set_scores (dict_set p 0 (scores g))
                (set_players (players g ++ [p]) g))
  end.

(** The players the loop of [add_players] mentions. *)
Fixpoint newcomers (roster ps : list Player) : list Player :=
  match ps with
  | [] => []
  | p :: rest =>
      if bool_decide (p ∈ roster) then newcomers roster rest
      else p :: newcomers (roster ++ [p]) rest
  end.

(** The vote counters and vote messages after the prompts for [l] were
    posted, the first of them with message id [id]. *)
Fixpoint votes_after (l : list (Player * string)) (vs : dict Player Z)
    : dict Player Z :=
  match l with
  | [] => vs
  | (user, _) :: l' => votes_after l' (dict_set user 0 vs)
  end.

Fixpoint vote_messages_after (id : nat) (l : list (Player * string))
    (vm : dict nat Player) : dict nat Player :=
  match l with
  | [] => vm
  | (user, _) :: l' => vote_messages_after (S id) l' (dict_set id user vm)
  end.

Fixpoint prompts_posted (id idx : nat) (l : list (Player * string))
    : list Output :=
  match l with
  | [] => []
  | (_, answer) :: l' =>
      [ChannelSend id (VotePrompt idx answer);
       ReactPrompt id keycap_1; ReactPrompt id keycap_2]
      ++ prompts_posted (S id) (S idx) l'
  end.

(** The world after the loop of [add_players] and its announcement. *)
Definition announce_joined (ps : list Player) (w : World) : World :=
  {| game := joined ps (game w);
     sent := sent w ++ [ChannelSend (next_message_id w)
                          (PlayersAdded (newcomers (players (game w)) ps))];
     next_message_id := S (next_message_id w);
     rng := rng w; rng_pos := rng_pos w |}.

(** The guard under which [add_players] goes on to [start_round]. *)
Definition auto_start (g : Game) : bool :=
  negb (bool_decide (is_Some (question_setter g))) && (len (players g) >=? 2).

(** [random.shuffle] as a pure function of the generator's state. *)
Definition shuffled {A} (x : list A) (w : World) : list A :=
  (shuffle_loop (length x - 1)%nat x (rng w) (rng_pos w)).1.

Definition draws_after {A} (x : list A) (w : World) : nat :=
  (shuffle_loop (length x - 1)%nat x (rng w) (rng_pos w)).2.

(** The world after [request_answer_selection] for setter [s]. *)
Definition selection_requested (s : Player) (w : World) : World :=
  let pool := shuffled (answers (game w)) w in
  {| game := set_answer_selection_list (Some pool) (game w);
     sent := sent w ++ [DirectMessage s (SelectTheAnswer (question (game w)) pool)];
     next_message_id := next_message_id w;
     rng := rng w; rng_pos := draws_after (answers (game w)) w |}.

(** The world after [select_answer] has taken [chosen] and posted the vote
    prompts. *)
Definition voting_opened (chosen : Player) (w : World) : World :=
  let order := shuffled (answers (game w)) w in
  {| game :=
       set_vote_messages
         (vote_messages_after (next_message_id w) order (vote_messages (game w)))
         (set_votes (votes_after order (votes (game w)))
            (set_answer_selection_list None
               (set_correct_answer (Some chosen) (game w))));
     sent := sent w ++ prompts_posted (next_message_id w) 1 order;
     next_message_id := (next_message_id w + length order)%nat;
     rng := rng w; rng_pos := draws_after (answers (game w)) w |}.

(** The world after a vote of [player] was counted. *)
Definition vote_counted (player : Player) (spent : Z) (e : Emoji) (w : World)
    : World :=
  with_game (set_votes (dict_set player (spent + credit e) (votes (game w)))
               (game w)) w.

(** The world after the round was completed: the answer revealed, the setter
    cleared. *)
Definition round_completed (text : string) (chosen : Player) (w : World)
    : World :=
  {| game := set_question_setter None (game w);
     sent := sent w ++ [ChannelSend (next_message_id w) (Reveal text chosen);
                        ChannelSend (S (next_message_id w)) ScoringNotImplemented];
     next_message_id := S (S (next_message_id w));
     rng := rng w; rng_pos := rng_pos w |}.

(** A vote the session counts once its message is found: voting is open
    ([chosen] was selected), the emoji is one of the two keycaps, and the
    voter has a counter, which stands at [spent]. *)
Definition valid_vote (ev : ReactionEvent) (g : Game)
    (voter : Player) (spent : Z) (chosen : Player) : Prop :=
  correct_answer g = Some chosen ∧
  (emoji ev = keycap_1 ∨ emoji ev = keycap_2) ∧
  member ev = Some voter ∧
  dict_get voter (votes g) = Some spent.

(** The guards of [handle_player_message] under which the message is taken
    as an answer. *)
Definition answer_accepted (m : Message) (g : Game) : bool :=
  truthy_str (question g)
  && negb (bool_decide (Some (author m) = question_setter g))
  && negb (truthy_list (answer_selection_list g)
           || bool_decide (is_Some (correct_answer g))).

(** The world after the answer was stored and acknowledged. *)
Definition answer_recorded (m : Message) (w : World) : World :=
  {| game := set_answers (dict_set (author m) (strip (content m))
                            (answers (game w))) (game w);
     sent := sent w ++ [ReactMessage m thumbs_up];
     next_message_id := next_message_id w;
     rng := rng w; rng_pos := rng_pos w |}.

(** ** The invariant of a session *)

Record session_inv (g : Game) : Prop := {
  inv_chosen : ∀ c, correct_answer g = Some c → c ∈ dict_keys (answers g);
  inv_pool : ∀ l p, answer_selection_list g = Some l →
                    p ∈ dict_keys l → p ∈ dict_keys (answers g);
  inv_exclusive : is_Some (answer_selection_list g) → correct_answer g = None;
  inv_closed : correct_answer g = None → votes g = [] ∧ vote_messages g = [];
  inv_voters : is_Some (correct_answer g) →
               ∀ p, p ∈ dict_keys (votes g) ↔ p ∈ dict_keys (answers g);
  inv_setter : ∀ s, question_setter g = Some s → s ∉ dict_keys (answers g);
  inv_done : question_setter g = None → is_Some (correct_answer g) →
             unfinished_voter (votes g) = None;
  inv_answers : NoDup (dict_keys (answers g));
  inv_roster : NoDup (players g);
  inv_scores : ∀ p, p ∈ players g → dict_get p (scores g) = Some 0;
  inv_cursor : -1 <= setter_index g
}.

(** What [handle_reaction] does with a vote it counts: the round is completed
    when no voter is left below two points. *)
Definition vote_outcome (voter : Player) (spent : Z) (chosen : Player)
    (ev : ReactionEvent) (w : World) : World * Res unit :=
  let w1 := vote_counted voter spent (emoji ev) w in
  match unfinished_voter (votes (game w1)) with
  | Some _ => (w1, Ok tt)
  | None =>
      match dict_get chosen (answers (game w)) with
      | Some text => (round_completed text chosen w1, Ok tt)
      | None => (w1, Raise KeyError)
      end
  end.

(** ** The end-to-end round of three players *)

Definition alice : Player := 1%nat.
Definition bob : Player := 2%nat.
Definition carol : Player := 3%nat.
Definition dave : Player := 4%nat.

(** A generator whose every draw is zero. *)
Definition zero_draws : nat → nat := fun _ => 0%nat.

Definition says (a : Player) (text : string) : Message :=
  {| author := a; content := text; mentions := [] |}.

Definition votes_on (voter : Player) (e : Emoji) (id : nat) : Event :=
  Reaction {| member := Some voter; emoji := e; message_id := id |}.

(** Alice, Bob and Carol join, Alice sets the question, Bob and Carol
    answer. *)
Definition scenario_answered : list Event :=
  [Join [alice; bob; carol];
   ChannelMessage (says alice "!question favorite food");
   PrivateMessage (says bob "pizza");
   PrivateMessage (says carol "tacos")].

(** Alice picks the second entry of her list, Bob's answer. *)
Definition scenario_voting : list Event :=
  scenario_answered ++ [PrivateMessage (says alice "2")].

(** Bob and Carol each spend two points. *)
Definition scenario_voted : list Event :=
  scenario_voting ++ [votes_on bob keycap_2 3; votes_on carol keycap_2 2].

Definition world_voting : World := run scenario_voting (new_world zero_draws).
Definition world_voted : World := run scenario_voted (new_world zero_draws).

Definition world_answered : World :=
  run scenario_answered (new_world zero_draws).

(** A vote of Bob on a message that is no vote prompt. *)
Definition stray_vote : ReactionEvent :=
  {| member := Some bob; emoji := keycap_2; message_id := 99 |}.

(** Bob's vote on the prompt that shows his own answer. *)
Definition bob_vote : ReactionEvent :=
  {| member := Some bob; emoji := keycap_2; message_id := 3 |}.

(** ** What the specification says of the roster *)

(** The distinct members of a list, each at the place of its first
    occurrence. *)
Fixpoint distinct_in_order (l : list Player) : list Player :=
  match l with
  | [] => []
  | p :: rest => p :: filter (fun q => q ≠ p) (distinct_in_order rest)
  end.

(** Three calls of [add_players], with repetitions. *)
Definition three_joins : list (list Player) :=
  [[alice; bob; alice]; [carol; bob]; [dave; alice; dave]].

(** ** Rounds as seen from outside *)

(** The setters named by the prompts "please set your question", oldest
    first: one for every round that was started. *)
Fixpoint setters_prompted (out : list Output) : list Player :=
  match out with
  | [] => []
  | ChannelSend _ (SetYourQuestion p) :: rest => p :: setters_prompted rest
  | _ :: rest => setters_prompted rest
  end.

(** The call [add_players ps] in world [w] starts a round. *)
Definition round_started_by (ps : list Player) (w : World) : Prop :=
  ∃ p, setters_prompted (sent (add_players ps w).1)
         = setters_prompted (sent w) ++ [p].

(** Bob answers, then answers again before Carol has. *)
Definition world_asked : World :=
  run [Join [alice; bob; carol];
       ChannelMessage (says alice "!question favorite food")]
      (new_world zero_draws).

(** The requests for an answer that [request_answers] sends: one to each
    player but the setter. *)
Definition answer_requests (g : Game) : list Output :=
  match question_setter g with
  | None => []
  | Some s =>
      omap (fun player =>
              if bool_decide (player = s) then None
              else Some (DirectMessage player (WhatAnswer s (question g))))
           (players g)
  end.

(** The world after the setter's [!question] was taken. *)
Definition question_asked (q : string) (w : World) : World :=
  {| game := set_question (Some q) (game w);
     sent := sent w ++ answer_requests (set_question (Some q) (game w));
     next_message_id := next_message_id w;
     rng := rng w; rng_pos := rng_pos w |}.

(** ** Rounds on a fixed roster *)

(** Along the events [evs] from [w] the roster is [roster] after every
    event. *)
Fixpoint roster_stays (roster : list Player) (evs : list Event) (w : World)
    : Prop :=
  match evs with
  | [] => True
  | ev :: evs' =>
      players (game (exec ev w)) = roster ∧ roster_stays roster evs' (exec ev w)
  end.

(** Nothing happened to the cursor, and no round was started. *)
Definition quiet (w w' : World) : Prop :=
  setter_index (game w') = setter_index (game w) ∧
  setters_prompted (sent w') = setters_prompted (sent w).

(** [start_round] ran from a state with the roster of [w'] and the cursor of
    [w]: the cursor moved on, and a round was started unless indexing the
    roster failed. *)
Definition advanced (w w' : World) : Prop :=
  let idx := if setter_index (game w) + 1 >=? len (players (game w')) then 0
             else setter_index (game w) + 1 in
  setter_index (game w') = idx ∧
  match py_index (players (game w')) idx with
  | Some p => setters_prompted (sent w') = setters_prompted (sent w) ++ [p]
  | None => setters_prompted (sent w') = setters_prompted (sent w)
  end.

(** The cursor points at the setter of the last round started; the setters
    so far are the roster taken round and round. *)
Definition cursor_ok (roster : list Player) (w : World) : Prop :=
  let setters := setters_prompted (sent w) in
  let k := length roster in
  (∀ i p, setters !! i = Some p → roster !! (i mod k)%nat = Some p) ∧
  (roster = [] → setters = []) ∧
  (roster ≠ [] →
   (setters = [] ∧ setter_index (game w) = -1) ∨
   (setters ≠ [] ∧
    setter_index (game w) = Z.of_nat ((length setters - 1) mod k))).

(** Alice and Bob play two rounds to the end and start a third. *)
Definition two_player_rounds : list Event :=
  [ChannelMessage (says alice "!question first");
   PrivateMessage (says bob "x");
   PrivateMessage (says alice "1");
   votes_on bob keycap_2 2;
   ChannelMessage (says carol "!nextround");
   ChannelMessage (says bob "!question second");
   PrivateMessage (says alice "y");
   PrivateMessage (says bob "1");
   votes_on alice keycap_1 6;
   votes_on alice keycap_1 6;
   ChannelMessage (says alice "!nextround")].



(** ** The elementary changes of a session *)

(** Every change a handler makes to the session is one of these; a handler
    makes a few of them in a row. *)
Inductive game_step : Game → Game → Prop :=
| step_join g p :
    p ∉ players g →
    game_step g (set_scores (dict_set p 0 (scores g))
                   (set_players (players g ++ [p]) g))
| step_start g p :
    question_setter g = None →
    py_index (players g) (next_index g) = Some p →
    game_step g (round_reset p g)
| step_start_failed g :
    question_setter g = None →
    py_index (players g) (next_index g) = None →
    game_step g (set_setter_index (next_index g) g)
| step_question g text :
    is_Some (question_setter g) →
    truthy_str (question g) = false →
    game_step g (set_question (Some (strip text)) g)
| step_answer g m :
    answer_accepted m g = true →
    game_step g (set_answers (dict_set (author m) (strip (content m))
                                (answers g)) g)
| step_request g pool :
    is_Some (question_setter g) →
    truthy_list (answer_selection_list g) = false →
    correct_answer g = None →
    answers g ≠ [] →
    len (answers g) = len (players g) - 1 →
    pool ≡ₚ answers g →
    game_step g (set_answer_selection_list (Some pool) g)
| step_select g l k chosen text id order :
    is_Some (question_setter g) →
    answer_selection_list g = Some l →
    l !! k = Some (chosen, text) →
    order ≡ₚ answers g →
    game_step g
      (set_vote_messages (vote_messages_after id order (vote_messages g))
         (set_votes (votes_after order (votes g))
            (set_answer_selection_list None
               (set_correct_answer (Some chosen) g))))
| step_vote g voter spent e :
    is_Some (correct_answer g) →
    e = keycap_1 ∨ e = keycap_2 →
    dict_get voter (votes g) = Some spent →
    game_step g (set_votes (dict_set voter (spent + credit e) (votes g)) g)
| step_complete g chosen text :
    correct_answer g = Some chosen →
    unfinished_voter (votes g) = None →
    dict_get chosen (answers g) = Some text →
    game_step g (set_question_setter None g).

(** ** More of what a session keeps *)

(** The first character of [s], if any, is no whitespace. *)
Definition clean_head (s : string) : Prop :=
  match s with
  | EmptyString => True
  | String c _ => py_isspace c = false
  end.

(** The last character of [s], if any, is no whitespace. *)
Fixpoint clean_last (s : string) : Prop :=
  match s with
  | EmptyString => True
  | String c EmptyString => py_isspace c = false
  | String _ s' => clean_last s'
  end.

Record round_inv (g : Game) : Prop := {
  r_cursor : -1 <= setter_index g;
  r_setter_at : ∀ s, question_setter g = Some s →
                     0 <= setter_index g ∧
                     players g !! Z.to_nat (setter_index g) = Some s;
  r_scores : dict_keys (scores g) = players g;
  r_scores_zero : ∀ p n, dict_get p (scores g) = Some n → n = 0;
  r_closed : correct_answer g = None → vote_messages g = [] ∧ votes g = [];
  r_exclusive : is_Some (answer_selection_list g) → correct_answer g = None;
  r_pool : ∀ l, answer_selection_list g = Some l → l ≠ [] ∧ l ≡ₚ answers g;
  r_targets : ∀ id p, dict_get id (vote_messages g) = Some p →
                      p ∈ dict_keys (answers g);
  r_prompts : is_Some (correct_answer g) →
              length (vote_messages g) = length (answers g);
  r_question : answers g ≠ [] ∨ is_Some (answer_selection_list g)
               ∨ is_Some (correct_answer g) →
               truthy_str (question g) = true;
  r_stripped : ∀ p t, dict_get p (answers g) = Some t → strip t = t;
  r_question_stripped : ∀ q, question g = Some q → strip q = q;
  r_votes : ∀ p n, dict_get p (votes g) = Some n → 0 <= n
}.

(** The superscript two: numeric for [str.isnumeric], no digit for [int]. *)
Definition superscript_two : string := String (ascii_of_nat 178) EmptyString.

(** Bob votes once more, after the round was completed. *)
Definition bob_votes_again : ReactionEvent :=
  {| member := Some bob; emoji := keycap_1; message_id := 3 |}.

(** Alice, the setter, tries to vote. *)
Definition alice_votes : ReactionEvent :=
  {| member := Some alice; emoji := keycap_2; message_id := 3 |}.

(** A [!question] command with the text [rest]. *)
Definition question_command (a : Player) (rest : string) : Message :=
  {| author := a; content := "!question " ++ rest; mentions := [] |}.

(** Bob has answered, Carol has not. *)
Definition world_one_answer : World :=
  run [Join [alice; bob; carol];
       ChannelMessage (says alice "!question favorite food");
       PrivateMessage (says bob "pizza")]
      (new_world zero_draws).

(** * The bot: routing events to sessions *)

(** The classes of channel the bot tells apart. *)
Inductive ChannelKind :=
| TextChannel
| DMChannel (recipient : Player)
| OtherChannel.

Record Channel := {
  channel_id : nat;
  channel_kind : ChannelKind
}.

(** A message as [on_message] gets it: the message and its channel. *)
Record Inbound := {
  inbound : Message;
  origin : Channel
}.

(** A raw reaction as [on_raw_reaction_add] gets it. *)
Record RawReaction := {
  raw : ReactionEvent;
  user_id : nat;
  reaction_channel : nat
}.

(** What the bot posts: the output of a session, in its channel, and the two
    messages of the bot itself. *)
Inductive BotOutput :=
| InSession (c : Channel) (o : Output)
| ThanksForPlaying (c : Channel)
| GameAlreadyExists (c : Channel).

(** [DiscordBot]: its user, its games, each with the channel it was created
    in, and the surroundings all sessions share. *)
Record Bot := {
  bot_user : Player;
  games : list (Channel * Game);
  posted : list BotOutput;
  bot_next_message_id : nat;
  bot_rng : nat → nat;
  bot_rng_pos : nat
}.

(** Two channel objects are of one class. *)
Definition same_class (k1 k2 : ChannelKind) : bool :=
  match k1, k2 with
  | TextChannel, TextChannel => true
  | DMChannel _, DMChannel _ => true
  | OtherChannel, OtherChannel => true
  | _, _ => false
  end.

(** [c == c']: channels are equal when they are of one class and have one
    id. *)
Definition channel_eq (c c' : Channel) : bool :=
  same_class (channel_kind c) (channel_kind c')
  && Nat.eqb (channel_id c) (channel_id c').

(** The world a session's method runs in. *)
Definition session_world (g : Game) (b : Bot) : World :=
  {| game := g; sent := [];
     next_message_id := bot_next_message_id b;
     rng := bot_rng b; rng_pos := bot_rng_pos b |}.

(** [await game.method(...)] for the game at place [i]. *)
Definition in_game (i : nat) (c : Channel) (g : Game) (method : M unit)
    (b : Bot) : Bot * Res unit :=
  let '(w, r) := method (session_world g b) in
  ({| bot_user := bot_user b;
      games := <[i := (c, game w)]> (games b);
      posted := posted b ++ map (InSession c) (sent w);
      bot_next_message_id := next_message_id w;
      bot_rng := bot_rng b; bot_rng_pos := rng_pos w |}, r).

(** [self.games.remove(game); await game.channel.send("Thanks for
    Playing!")] for the game at place [i]. *)
Definition end_game (i : nat) (c : Channel) (b : Bot) : Bot :=
  {| bot_user := bot_user b;
     games := delete i (games b);
     posted := posted b ++ [ThanksForPlaying c];
     bot_next_message_id := S (bot_next_message_id b);
     bot_rng := bot_rng b; bot_rng_pos := bot_rng_pos b |}.

(** The first game whose channel equals [c]. *)
Definition game_in (c : Channel) (b : Bot) : option (nat * (Channel * Game)) :=
  list_find (fun cg => channel_eq c cg.1 = true) (games b).

(** The first game with [user] in its roster. *)
Definition game_of (user : Player) (b : Bot)
    : option (nat * (Channel * Game)) :=
  list_find (fun cg => user ∈ players cg.2) (games b).

(** [on_message]. The call [self.start_game(message)] is not awaited: it
    makes a coroutine object and drops it, so the body of [start_game] never
    runs. *)
Definition on_message (msg : Inbound) (b : Bot) : Bot * Res unit :=
  let m := inbound msg in
  if bool_decide (author m = bot_user b) then (b, Ok tt)
  else if startswith (content m) "!startgame " then (b, Ok tt)
  else
    match (if startswith (content m) "!endgame" then game_in (origin msg) b
           else None) with
    | Some (i, (c, _)) => (end_game i c b, Ok tt)
    | None =>
        match game_in (origin msg) b with
        | Some (i, (c, g)) => in_game i c g (handle_channel_message m) b
        | None =>
            match channel_kind (origin msg) with
            | DMChannel user =>
                match game_of user b with
                | Some (i, (c, g)) => in_game i c g (handle_player_message m) b
                | None => (b, Ok tt)
                end
            | _ => (b, Ok tt)
            end
        end
    end.

(** [on_raw_reaction_add] *)
Definition on_raw_reaction_add (ev : RawReaction) (b : Bot) : Bot * Res unit :=
  if bool_decide (user_id ev = bot_user b) then (b, Ok tt)
  else
    match list_find (fun cg => channel_id cg.1 = reaction_channel ev)
                    (games b) with
    | Some (i, (c, g)) => in_game i c g (handle_reaction (raw ev)) b
    | None => (b, Ok tt)
    end.

(** [start_game], when it is run. *)
Definition start_game (msg : Inbound) (b : Bot) : Bot * Res unit :=
  match channel_kind (origin msg) with
  | TextChannel =>
      match game_in (origin msg) b with
      | Some (_, (c, _)) =>
          ({| bot_user := bot_user b; games := games b;
              posted := posted b ++ [GameAlreadyExists c];
              bot_next_message_id := S (bot_next_message_id b);
              bot_rng := bot_rng b; bot_rng_pos := bot_rng_pos b |}, Ok tt)
      | None =>
          in_game (length (games b)) (origin msg) new_game
            (add_players (mentions (inbound msg)))
            {| bot_user := bot_user b;
               games := games b ++ [(origin msg, new_game)];
               posted := posted b;
               bot_next_message_id := bot_next_message_id b;
               bot_rng := bot_rng b; bot_rng_pos := bot_rng_pos b |}
      end
  | _ => (b, Ok tt)
  end.

(** The two events Discord delivers to the bot. *)
Inductive BotEvent :=
| MessageReceived (msg : Inbound)
| ReactionAdded (ev : RawReaction).

Definition bot_step (ev : BotEvent) (b : Bot) : Bot * Res unit :=
  match ev with
  | MessageReceived msg => on_message msg b
  | ReactionAdded r => on_raw_reaction_add r b
  end.

Definition bot_run (evs : list BotEvent) (b : Bot) : Bot :=
  fold_left (fun b ev => (bot_step ev b).1) evs b.

(** Every game sits in a text channel, and no two games in one channel. *)
Definition games_ok (l : list (Channel * Game)) : Prop :=
  Forall (fun cg => channel_kind cg.1 = TextChannel) l ∧
  NoDup ((fun cg => channel_id cg.1) <$> l).

(** A bot with one session, in text channel 7, in the state [world_voting];
    and messages to it. *)
Definition lobby : Channel := {| channel_id := 7; channel_kind := TextChannel |}.
Definition hall : Channel := {| channel_id := 8; channel_kind := TextChannel |}.

Definition bot_with_game : Bot :=
  {| bot_user := 0%nat; games := [(lobby, game world_voting)]; posted := [];
     bot_next_message_id := 10; bot_rng := zero_draws; bot_rng_pos := 0 |}.

Definition new_bot : Bot :=
  {| bot_user := 0%nat; games := []; posted := [];
     bot_next_message_id := 0; bot_rng := zero_draws; bot_rng_pos := 0 |}.

Definition in_channel (c : Channel) (a : Player) (text : string)
    (ms : list Player) : Inbound :=
  {| inbound := {| author := a; content := text; mentions := ms |};
     origin := c |}.

(** A player's direct-message channel. *)
Definition dm_with (user : Player) : Channel :=
  {| channel_id := 100 + user; channel_kind := DMChannel user |}.

(** A bot with two games that both have Bob in the roster. *)
Definition bot_with_two_games : Bot :=
  {| bot_user := 0%nat;
     games := [(lobby, game world_asked); (hall, game world_asked)];
     posted := [];
     bot_next_message_id := 10; bot_rng := zero_draws; bot_rng_pos := 0 |}.

(** With an answer chosen, the players the vote messages stand for are the
    authors of the answers, each once, and no two vote messages share an
    id. *)
Definition prompts_inv (g : Game) : Prop :=
  is_Some (correct_answer g) →
  map snd (vote_messages g) ≡ₚ dict_keys (answers g) ∧
  NoDup (dict_keys (vote_messages g)).

(** ** A failed start before the first join *)

(** [!nextround] arrives before anybody has joined, then Alice and Bob
    join and play two rounds to the end and start a third. *)
Definition rounds_after_failed_start : list Event :=
  [ChannelMessage (says alice "!nextround");
   Join [alice; bob];
   ChannelMessage (says bob "!question first");
   PrivateMessage (says alice "x");
   PrivateMessage (says bob "1");
   votes_on alice keycap_2 2;
   ChannelMessage (says carol "!nextround");
   ChannelMessage (says alice "!question second");
   PrivateMessage (says bob "y");
   PrivateMessage (says alice "1");
   votes_on bob keycap_2 6;
   ChannelMessage (says alice "!nextround")].

(** ** The first round *)








(** * Properties *)

(** ** Dictionaries *)

Section DictFacts.
Context {K V : Type} `{EqDecision K}.
Implicit Types (d : dict K V) (k : K) (v : V).

Lemma dict_get_set_eq k v d : dict_get k (dict_set k v d) = Some v.
Proof.
  induction d as [|[k' v'] d IH]; simpl.
  - by rewrite decide_True.
  - destruct (decide (k = k')) as [->|Hne]; simpl.
    + by rewrite decide_True.
    + by rewrite decide_False.
Qed.

Lemma dict_get_set_ne k k' v d :
  k ≠ k' → dict_get k' (dict_set k v d) = dict_get k' d.
Proof.
  intros Hne. induction d as [|[k0 v0] d IH]; simpl.
  - by rewrite decide_False.
  - destruct (decide (k = k0)) as [->|Hk]; simpl.
    + by rewrite !decide_False.
    + destruct (decide (k' = k0)); auto.
Qed.

Lemma dict_set_set k v v' d :
  dict_set k v' (dict_set k v d) = dict_set k v' d.
Proof.
  induction d as [|[k0 v0] d IH]; simpl.
  - by rewrite decide_True.
  - destruct (decide (k = k0)) as [->|Hk]; simpl.
    + by rewrite decide_True.
    + rewrite decide_False by done. by rewrite IH.
Qed.

Lemma dict_get_Some_keys k d :
  is_Some (dict_get k d) ↔ k ∈ dict_keys d.
Proof.
  unfold dict_keys. induction d as [|[k0 v0] d IH]; simpl.
  - split; [intros [? ?]; done | intros ?%elem_of_nil; done].
  - rewrite elem_of_cons. destruct (decide (k = k0)) as [->|Hk].
    + split; eauto.
    + rewrite IH. split; [by right | by intros [?|?]].
Qed.

Lemma dict_mem_keys k d : dict_mem k d = true ↔ k ∈ dict_keys d.
Proof.
  rewrite <- dict_get_Some_keys. unfold dict_mem.
  destruct (dict_get k d); split; intros H0; eauto; done.
Qed.

Lemma dict_keys_set k' k v d :
  k' ∈ dict_keys (dict_set k v d) ↔ k' = k ∨ k' ∈ dict_keys d.
Proof.
  unfold dict_keys. induction d as [|[k0 v0] d IH]; simpl.
  - rewrite list_elem_of_singleton, elem_of_nil. naive_solver.
  - destruct (decide (k = k0)) as [->|Hk]; simpl.
    + rewrite !elem_of_cons. naive_solver.
    + rewrite !elem_of_cons, IH. naive_solver.
Qed.

Lemma dict_keys_set_present k v d :
  k ∈ dict_keys d → dict_keys (dict_set k v d) = dict_keys d.
Proof.
  unfold dict_keys. induction d as [|[k0 v0] d IH]; simpl.
  - intros ?%elem_of_nil. done.
  - intros Hin. destruct (decide (k = k0)) as [->|Hk]; simpl; [done|].
    f_equal. apply IH. apply elem_of_cons in Hin. naive_solver.
Qed.

Lemma dict_keys_set_absent k v d :
  k ∉ dict_keys d → dict_keys (dict_set k v d) = dict_keys d ++ [k].
Proof.
  unfold dict_keys. induction d as [|[k0 v0] d IH]; simpl; [done|].
  intros Hin. rewrite not_elem_of_cons in Hin. destruct Hin as [Hk Hin].
  rewrite decide_False by done. simpl. f_equal. by apply IH.
Qed.

Lemma dict_keys_set_NoDup k v d :
  NoDup (dict_keys d) → NoDup (dict_keys (dict_set k v d)).
Proof.
  intros Hnd. destruct (decide (k ∈ dict_keys d)) as [Hin|Hin].
  - by rewrite dict_keys_set_present.
  - rewrite dict_keys_set_absent by done.
    apply NoDup_app. split_and!; [done| |apply NoDup_singleton].
    intros x Hx ->%list_elem_of_singleton. done.
Qed.

Lemma dict_set_length_present k v d :
  k ∈ dict_keys d → length (dict_set k v d) = length d.
Proof.
  intros Hin. apply (dict_keys_set_present k v) in Hin.
  apply (f_equal length) in Hin. unfold dict_keys in Hin.
  by rewrite !length_map in Hin.
Qed.
End DictFacts.

(** ** The shuffle returns a permutation *)

Lemma insert_head_perm {A} (t : list A) (j : nat) (b h : A) :
  t !! j = Some b → b :: <[j:=h]> t ≡ₚ h :: t.
Proof.
  revert j. induction t as [|c t IH]; intros [|j] Hj; simplify_eq/=.
  - apply perm_swap.
  - rewrite perm_swap, (IH _ Hj). apply perm_swap.
Qed.

Lemma swap_perm {A} (i j : nat) (x : list A) : swap i j x ≡ₚ x.
Proof.
  unfold swap. destruct (x !! i) as [a|] eqn:Hi; [|done].
  destruct (x !! j) as [b|] eqn:Hj; [|done].
  revert i j Hi Hj. induction x as [|h t IH]; intros [|i] [|j] Hi Hj;
    simplify_eq/=; try done.
  - by apply insert_head_perm.
  - by apply insert_head_perm.
  - apply perm_skip. by apply IH.
Qed.

Lemma shuffle_loop_perm {A} (i : nat) (x : list A) draws pos :
  (shuffle_loop i x draws pos).1 ≡ₚ x.
Proof.
  revert x pos. induction i as [|i IH]; intros x pos; simpl; [done|].
  rewrite IH. apply swap_perm.
Qed.

(** ** What each method does *)

Lemma start_round_active w s :
  question_setter (game w) = Some s → start_round w = (w, Ok tt).
Proof. intros Hs. unfold start_round, bind, gets, ret. simpl. by rewrite Hs. Qed.

Lemma start_round_starts w p :
  question_setter (game w) = None →
  py_index (players (game w)) (next_index (game w)) = Some p →
  start_round w =
    ({| game := round_reset p (game w);
        sent := sent w ++ [ChannelSend (next_message_id w) (SetYourQuestion p)];
        next_message_id := S (next_message_id w);
        rng := rng w; rng_pos := rng_pos w |}, Ok tt).
Proof.
  intros Hs Hp. unfold next_index in Hp.
  unfold start_round, bind, gets, modify, ret, raise, channel_send. simpl.
  rewrite Hs. simpl.
  destruct (setter_index (game w) + 1 >=? len (players (game w))) eqn:Hge;
    simpl; rewrite Hp; simpl; unfold round_reset, next_index; by rewrite Hge.
Qed.

Lemma start_round_raises w :
  question_setter (game w) = None →
  py_index (players (game w)) (next_index (game w)) = None →
  start_round w =
    (with_game (set_setter_index (next_index (game w)) (game w)) w,
     Raise IndexError).
Proof.
  intros Hs Hp. unfold next_index in *.
  unfold start_round, bind, gets, modify, ret, raise, channel_send. simpl.
  rewrite Hs. simpl.
  destruct (setter_index (game w) + 1 >=? len (players (game w))) eqn:Hge;
    simpl; rewrite Hp; simpl; done.
Qed.

Lemma with_game_id w : with_game (game w) w = w.
Proof. by destruct w. Qed.

Lemma add_players_loop_spec ps mentioned w :
  add_players_loop ps mentioned w =
    (with_game (joined ps (game w)) w,
     Ok (mentioned ++ newcomers (players (game w)) ps)).
Proof.
  revert mentioned w. induction ps as [|p ps IH]; intros mentioned w; simpl.
  - by rewrite with_game_id, app_nil_r.
  - unfold bind, gets. simpl.
    destruct (bool_decide (p ∈ players (game w))); [apply IH|].
    unfold modify. simpl. rewrite IH. simpl.
    by rewrite <- app_assoc.
Qed.

Lemma add_players_spec ps w :
  add_players ps w =
    if auto_start (joined ps (game w)) then start_round (announce_joined ps w)
    else (announce_joined ps w, Ok tt).
Proof.
  unfold add_players, bind. rewrite add_players_loop_spec.
  unfold channel_send, gets, auto_start, ret. simpl.
  fold (announce_joined ps w).
  by destruct (negb _ && _).
Qed.

Lemma joined_frame ps g :
  setter_index (joined ps g) = setter_index g ∧
  question_setter (joined ps g) = question_setter g ∧
  question (joined ps g) = question g ∧
  answers (joined ps g) = answers g ∧
  answer_selection_list (joined ps g) = answer_selection_list g ∧
  correct_answer (joined ps g) = correct_answer g ∧
  vote_messages (joined ps g) = vote_messages g ∧
  votes (joined ps g) = votes g.
Proof.
  revert g. induction ps as [|p ps IH]; intros g; simpl; [done|].
  destruct (bool_decide (p ∈ players g)); [apply IH|].
  destruct (IH (set_scores (dict_set p 0 (scores g))
                  (set_players (players g ++ [p]) g))) as (?&?&?&?&?&?&?&?).
  done.
Qed.

Lemma joined_players ps g :
  players (joined ps g) = players g ++ newcomers (players g) ps.
Proof.
  revert g. induction ps as [|p ps IH]; intros g; simpl.
  - by rewrite app_nil_r.
  - destruct (bool_decide (p ∈ players g)); [apply IH|].
    rewrite IH. simpl. by rewrite <- app_assoc.
Qed.

Lemma for_each_ext {A} (l : list A) (f g : A → M unit) w :
  (∀ a w', f a w' = g a w') → for_each l f w = for_each l g w.
Proof.
  intros Hfg. revert w. induction l as [|a l IH]; intros w; simpl; [done|].
  unfold bind. rewrite Hfg. destruct (g a w) as [w' [[]|e]]; auto.
Qed.

Lemma for_each_emits {A} (l : list A) (out : A → option Output) w :
  for_each l (fun a => match out a with
                       | Some o => emit o
                       | None => ret tt
                       end) w =
  ({| game := game w; sent := sent w ++ omap out l;
      next_message_id := next_message_id w;
      rng := rng w; rng_pos := rng_pos w |}, Ok tt).
Proof.
  revert w. induction l as [|a l IH]; intros w; simpl.
  - rewrite app_nil_r. by destruct w.
  - unfold bind. destruct (out a) as [o|]; simpl.
    + rewrite IH. simpl. by rewrite <- app_assoc.
    + apply IH.
Qed.

Lemma request_answers_spec w :
  request_answers w =
    ({| game := game w; sent := sent w ++ answer_requests (game w);
        next_message_id := next_message_id w;
        rng := rng w; rng_pos := rng_pos w |}, Ok tt).
Proof.
  unfold request_answers, answer_requests, bind, gets. simpl.
  destruct (question_setter (game w)) as [s|].
  - rewrite <- for_each_emits. apply for_each_ext.
    intros a w'. by destruct (bool_decide (a = s)).
  - rewrite app_nil_r. by destruct w.
Qed.

Lemma shuffle_spec {A} (x : list A) w :
  shuffle x w =
    ({| game := game w; sent := sent w; next_message_id := next_message_id w;
        rng := rng w; rng_pos := draws_after x w |}, Ok (shuffled x w)).
Proof.
  unfold shuffle, draws_after, shuffled.
  by destruct (shuffle_loop _ _ _ _).
Qed.

Lemma shuffled_perm {A} (x : list A) w : shuffled x w ≡ₚ x.
Proof. apply shuffle_loop_perm. Qed.

Lemma request_answer_selection_idle w :
  question_setter (game w) = None →
  request_answer_selection w = (w, Ok tt).
Proof.
  intros Hs. unfold request_answer_selection, bind, gets. simpl.
  by rewrite Hs.
Qed.

Lemma request_answer_selection_spec w s :
  question_setter (game w) = Some s →
  request_answer_selection w = (selection_requested s w, Ok tt).
Proof.
  intros Hs. unfold request_answer_selection, bind, gets. simpl.
  rewrite Hs, shuffle_spec. done.
Qed.

Lemma post_vote_prompts_spec l idx w :
  for_each (enumerate idx l) post_vote_prompt w =
    ({| game :=
          set_vote_messages
            (vote_messages_after (next_message_id w) l (vote_messages (game w)))
            (set_votes (votes_after l (votes (game w))) (game w));
        sent := sent w ++ prompts_posted (next_message_id w) idx l;
        next_message_id := (next_message_id w + length l)%nat;
        rng := rng w; rng_pos := rng_pos w |}, Ok tt).
Proof.
  revert idx w. induction l as [|[user answer] l IH]; intros idx w; simpl.
  - rewrite app_nil_r, Nat.add_0_r. by destruct w as [[] ? ? ? ?].
  - unfold bind at 1. unfold post_vote_prompt, bind, channel_send, modify, emit.
    simpl. rewrite IH. simpl. rewrite <- !app_assoc. simpl.
    by rewrite Nat.add_succ_r.
Qed.

Lemma select_answer_low index w :
  index < 1 → select_answer index w = (w, Ok tt).
Proof.
  intros Hlt. unfold select_answer.
  by destruct (Z.ltb_spec index 1); [|lia].
Qed.

Lemma select_answer_high index w :
  index > len (default [] (answer_selection_list (game w))) →
  select_answer index w = (w, Ok tt).
Proof.
  intros Hgt. unfold select_answer.
  destruct (Z.ltb_spec index 1); [done|].
  unfold bind, gets. simpl.
  by destruct (Z.gtb_spec index
                 (len (default [] (answer_selection_list (game w))))); [|lia].
Qed.

Lemma py_index_in_range {A} (l : list A) (i : Z) :
  0 <= i < len l → py_index l i = l !! Z.to_nat i.
Proof.
  intros [H0 Hn]. unfold py_index, len in *.
  destruct (Z.leb_spec 0 i); [|lia].
  by destruct (Z.ltb_spec i (Z.of_nat (length l))); [|lia].
Qed.

Lemma select_answer_selects index w chosen text :
  1 <= index <= len (default [] (answer_selection_list (game w))) →
  default [] (answer_selection_list (game w)) !! Z.to_nat (index - 1)
    = Some (chosen, text) →
  select_answer index w = (voting_opened chosen w, Ok tt).
Proof.
  intros [Hlo Hhi] Hk. unfold select_answer.
  destruct (Z.ltb_spec index 1); [lia|].
  unfold bind at 1. unfold gets at 1. simpl.
  destruct (Z.gtb_spec index
              (len (default [] (answer_selection_list (game w))))); [lia|].
  rewrite py_index_in_range, Hk by lia.
  unfold bind, modify, gets. simpl. rewrite shuffle_spec. simpl.
  rewrite post_vote_prompts_spec. done.
Qed.

Lemma find_message_None (m : nat) (l : list nat) :
  m ∉ l → find (fun id => Nat.eqb id m) l = None.
Proof.
  induction l as [|a l IH]; simpl; [done|].
  rewrite not_elem_of_cons. intros [Hne Hl].
  destruct (Nat.eqb_spec a m); [congruence|auto].
Qed.

Lemma find_message_Some (m : nat) (l : list nat) :
  m ∈ l → find (fun id => Nat.eqb id m) l = Some m.
Proof.
  induction l as [|a l IH]; simpl.
  - by intros ?%elem_of_nil.
  - rewrite elem_of_cons. intros Hin.
    destruct (Nat.eqb_spec a m) as [->|Hne]; [done|].
    destruct Hin as [->|Hin]; [done|auto].
Qed.

Lemma handle_reaction_closed ev w :
  correct_answer (game w) = None → handle_reaction ev w = (w, Ok tt).
Proof.
  intros Hc. unfold handle_reaction, bind, gets. simpl. by rewrite Hc.
Qed.

Lemma handle_reaction_other_emoji ev w :
  emoji ev ≠ keycap_1 → emoji ev ≠ keycap_2 →
  handle_reaction ev w = (w, Ok tt).
Proof.
  intros H1 H2. unfold handle_reaction, bind, gets. simpl.
  destruct (correct_answer (game w)); [|done].
  by destruct (emoji ev).
Qed.

Lemma handle_reaction_no_member ev w :
  member ev = None → handle_reaction ev w = (w, Ok tt).
Proof.
  intros Hm. unfold handle_reaction, bind, gets. simpl.
  destruct (correct_answer (game w)); [|done].
  rewrite Hm. by destruct (emoji ev).
Qed.

Lemma handle_reaction_non_voter ev w p :
  member ev = Some p → p ∉ dict_keys (votes (game w)) →
  handle_reaction ev w = (w, Ok tt).
Proof.
  intros Hm Hp.
  assert (dict_mem p (votes (game w)) = false) as Hmem.
  { destruct (dict_mem p (votes (game w))) eqn:E; [|done].
    by apply dict_mem_keys in E. }
  unfold handle_reaction, bind, gets. simpl.
  destruct (correct_answer (game w)); [|done].
  rewrite Hm. destruct (emoji ev); try done; by rewrite Hmem.
Qed.

Lemma handle_reaction_unresolved ev w voter spent chosen :
  valid_vote ev (game w) voter spent chosen →
  message_id ev ∉ dict_keys (vote_messages (game w)) →
  handle_reaction ev w = (w, Raise StopIteration).
Proof.
  intros (Hc & He & Hm & Hv) Hid.
  unfold handle_reaction, bind, gets. simpl. rewrite Hc, Hm.
  destruct He as [-> | ->]; unfold dict_mem; rewrite Hv; simpl;
    by rewrite (find_message_None _ _ Hid).
Qed.

Lemma handle_reaction_counted ev w voter spent chosen :
  valid_vote ev (game w) voter spent chosen →
  message_id ev ∈ dict_keys (vote_messages (game w)) →
  handle_reaction ev w = vote_outcome voter spent chosen ev w.
Proof.
  intros (Hc & He & Hm & Hv) Hid. unfold vote_outcome.
  unfold handle_reaction, bind, gets. simpl. rewrite Hc, Hm.
  pose proof (find_message_Some _ _ Hid) as Hfind.
  apply dict_get_Some_keys in Hid as [target Htarget].
  destruct He as [-> | ->]; unfold dict_mem; rewrite Hv; simpl;
    rewrite Hfind, Htarget; unfold modify, channel_send, ret, raise; simpl;
    (destruct (unfinished_voter _); [done|]); simpl;
    (destruct (dict_get chosen (answers (game w))); [|done]);
    unfold round_completed; simpl; by rewrite <- app_assoc.
Qed.

Lemma handle_player_message_no_question m w :
  truthy_str (question (game w)) = false →
  handle_player_message m w = (w, Ok tt).
Proof.
  intros Hq. unfold handle_player_message, bind, gets. simpl. by rewrite Hq.
Qed.

Lemma handle_player_message_accepted m w :
  answer_accepted m (game w) = true →
  handle_player_message m w =
    if len (answers (game (answer_recorded m w)))
       =? len (players (game w)) - 1
    then request_answer_selection (answer_recorded m w)
    else (answer_recorded m w, Ok tt).
Proof.
  unfold answer_accepted. rewrite !andb_true_iff, !negb_true_iff.
  intros [[Hq Hs] Hp].
  unfold handle_player_message. cbv beta iota delta [bind gets ret].
  rewrite Hq. cbv beta iota delta [negb]. rewrite Hs.
  cbv beta iota. rewrite Hp.
  unfold modify, emit. simpl.
  fold (answer_recorded m w). by destruct (_ =? _).
Qed.

Lemma handle_player_message_late m w :
  Some (author m) ≠ question_setter (game w) →
  truthy_list (answer_selection_list (game w))
  || bool_decide (is_Some (correct_answer (game w))) = true →
  handle_player_message m w = (w, Ok tt).
Proof.
  intros Hs Hp. unfold handle_player_message.
  cbv beta iota delta [bind gets ret].
  destruct (truthy_str (question (game w))); [|done].
  cbv beta iota delta [negb].
  rewrite bool_decide_false by done. by rewrite Hp.
Qed.

Lemma handle_player_message_setter m w :
  Some (author m) = question_setter (game w) →
  handle_player_message m w = (w, Ok tt) ∨
  handle_player_message m w = (w, Raise ValueError) ∨
  ∃ index, truthy_list (answer_selection_list (game w)) = true ∧
           py_int (content m) = Some index ∧
           handle_player_message m w = select_answer index w.
Proof.
  intros Hs. unfold handle_player_message.
  cbv beta iota delta [bind gets ret].
  destruct (truthy_str (question (game w))); [|by left].
  cbv beta iota delta [negb].
  rewrite bool_decide_true by done.
  destruct (truthy_list (answer_selection_list (game w))); [|by left].
  cbv beta iota.
  destruct (isnumeric (content m)); [|by left].
  destruct (py_int (content m)) as [index|]; [|by right; left].
  right; right. by exists index.
Qed.

Lemma handle_channel_message_cases m w :
  handle_channel_message m w = start_round w ∨
  handle_channel_message m w = add_players (mentions m) w ∨
  handle_channel_message m w = (w, Ok tt) ∨
  (question_setter (game w) = Some (author m) ∧
   truthy_str (question (game w)) = false ∧
   handle_channel_message m w =
     (question_asked (strip (string_drop 10 (content m))) w, Ok tt)).
Proof.
  unfold handle_channel_message.
  destruct (startswith (content m) "!nextround"); [by left|].
  destruct (startswith (content m) "!addplayers "); [by right; left|].
  destruct (startswith (content m) "!question "); [|by right; right; left].
  cbv beta iota delta [bind gets ret].
  destruct (truthy_str (question (game w))) eqn:Hq; [by right; right; left|].
  destruct (bool_decide_reflect (Some (author m) = question_setter (game w)))
    as [Hs|Hs]; [|by right; right; left].
  right; right; right. cbv beta iota delta [negb modify].
  split; [done|]. split; [done|]. by rewrite request_answers_spec.
Qed.

(** ** The invariant holds in every reachable state *)

Lemma unfinished_voter_None (vs : dict Player Z) :
  unfinished_voter vs = None ↔ ∀ p n, dict_get p vs = Some n → 2 <= n.
Proof.
  unfold unfinished_voter. split.
  - intros Hnone p n Hp.
    assert (p ∈ dict_keys vs) as Hin by (apply dict_get_Some_keys; eauto).
    apply list_elem_of_In in Hin.
    pose proof (find_none _ _ Hnone p Hin) as Hf. simpl in Hf.
    rewrite Hp in Hf. lia.
  - intros Hall. destruct (find _ _) as [p|] eqn:Hfind; [|done].
    apply find_some in Hfind as [_ Hf].
    destruct (dict_get p vs) as [n|] eqn:Hp; [|done].
    specialize (Hall p n Hp). lia.
Qed.

Lemma unfinished_voter_more (vs : dict Player Z) voter spent add :
  0 <= add → dict_get voter vs = Some spent →
  unfinished_voter vs = None →
  unfinished_voter (dict_set voter (spent + add) vs) = None.
Proof.
  intros Hadd Hv Hnone. apply unfinished_voter_None. intros p n Hp.
  rewrite unfinished_voter_None in Hnone.
  destruct (decide (voter = p)) as [->|Hne].
  - rewrite dict_get_set_eq in Hp. simplify_eq. specialize (Hnone p spent Hv). lia.
  - rewrite dict_get_set_ne in Hp by done. eauto.
Qed.

Lemma votes_after_keys l (vs : dict Player Z) p :
  p ∈ dict_keys (votes_after l vs) ↔ p ∈ dict_keys l ∨ p ∈ dict_keys vs.
Proof.
  revert vs. induction l as [|[u a] l IH]; intros vs; simpl.
  - rewrite elem_of_nil. naive_solver.
  - rewrite IH, dict_keys_set, elem_of_cons. naive_solver.
Qed.

Lemma credit_nonneg e : 0 <= credit e.
Proof. destruct e; simpl; lia. Qed.

Lemma session_inv_new : session_inv new_game.
Proof.
  split; simpl; try done.
  - apply NoDup_nil_2.
  - apply NoDup_nil_2.
  - intros ? ?%elem_of_nil; done.
Qed.

Lemma session_inv_round_reset p g :
  session_inv g → session_inv (round_reset p g).
Proof.
  intros [].
  split; simpl; try done.
  - intros ? _ ?%elem_of_nil; done.
  - apply NoDup_nil_2.
  - unfold next_index. destruct (_ >=? _); lia.
Qed.

Lemma session_inv_set_setter_index i g :
  -1 <= i → session_inv g → session_inv (set_setter_index i g).
Proof. intros Hi []. split; simpl; done. Qed.

Lemma next_index_lower g : -1 <= setter_index g → 0 <= next_index g.
Proof. unfold next_index. destruct (_ >=? _); lia. Qed.

Lemma start_round_cases w :
  start_round w = (w, Ok tt) ∨
  (∃ p w', question_setter (game w) = None ∧ start_round w = (w', Ok tt) ∧
           game w' = round_reset p (game w)) ∨
  (question_setter (game w) = None ∧
   start_round w =
     (with_game (set_setter_index (next_index (game w)) (game w)) w,
      Raise IndexError)).
Proof.
  destruct (question_setter (game w)) as [s|] eqn:Hs.
  - left. by eapply start_round_active.
  - destruct (py_index (players (game w)) (next_index (game w))) as [p|] eqn:Hp.
    + right; left. eexists p, _. split; [done|].
      split; [by apply start_round_starts|done].
    + right; right. split; [done|]. by apply start_round_raises.
Qed.

Lemma session_inv_start_round w :
  session_inv (game w) → session_inv (game (start_round w).1).
Proof.
  intros Hinv.
  destruct (start_round_cases w) as [-> | [(p & w' & _ & -> & Hg) | [_ ->]]];
    simpl; [done| |].
  - rewrite Hg. by apply session_inv_round_reset.
  - apply session_inv_set_setter_index; [|done].
    pose proof (next_index_lower (game w) (inv_cursor _ Hinv)). lia.
Qed.

Lemma session_inv_joined ps g : session_inv g → session_inv (joined ps g).
Proof.
  revert g. induction ps as [|p ps IH]; intros g Hinv; simpl; [done|].
  destruct (bool_decide_reflect (p ∈ players g)) as [Hin|Hin]; [by apply IH|].
  apply IH. destruct Hinv. split; simpl; try done.
  - apply NoDup_app. split_and!; [done| |apply NoDup_singleton].
    intros x Hx ->%list_elem_of_singleton. done.
  - intros q [Hq | ->%list_elem_of_singleton]%elem_of_app.
    + rewrite dict_get_set_ne; [auto|]. intros ->. done.
    + apply dict_get_set_eq.
Qed.

Lemma session_inv_add_players ps w :
  session_inv (game w) → session_inv (game (add_players ps w).1).
Proof.
  intros Hinv. rewrite add_players_spec.
  destruct (auto_start _).
  - apply session_inv_start_round. simpl. by apply session_inv_joined.
  - simpl. by apply session_inv_joined.
Qed.

Lemma session_inv_set_question q g :
  session_inv g → session_inv (set_question q g).
Proof. intros []. split; simpl; done. Qed.

Lemma session_inv_handle_channel_message m w :
  session_inv (game w) → session_inv (game (handle_channel_message m w).1).
Proof.
  intros Hinv.
  destruct (handle_channel_message_cases m w)
    as [-> | [-> | [-> | (_ & _ & ->)]]]; simpl.
  - by apply session_inv_start_round.
  - by apply session_inv_add_players.
  - done.
  - by apply session_inv_set_question.
Qed.

Lemma dict_keys_perm {K V} (d1 d2 : dict K V) :
  d1 ≡ₚ d2 → dict_keys d1 ≡ₚ dict_keys d2.
Proof. intros Hp. unfold dict_keys. by apply Permutation_map. Qed.

Lemma dict_keys_lookup {K V} (d : dict K V) i k v :
  d !! i = Some (k, v) → k ∈ dict_keys d.
Proof.
  intros Hi. unfold dict_keys. apply list_elem_of_In, in_map_iff.
  exists (k, v). split; [done|].
  apply list_elem_of_In. by eapply list_elem_of_lookup_2.
Qed.

Lemma session_inv_voting_opened chosen w l :
  session_inv (game w) →
  answer_selection_list (game w) = Some l →
  chosen ∈ dict_keys l →
  is_Some (question_setter (game w)) →
  session_inv (game (voting_opened chosen w)).
Proof.
  intros Hinv Hl Hchosen [s Hs].
  assert (correct_answer (game w) = None) as Hnone
    by (apply (inv_exclusive _ Hinv); rewrite Hl; eauto).
  destruct (inv_closed _ Hinv Hnone) as [Hvotes _].
  destruct Hinv. split; simpl; try done.
  - intros c [= <-]. eauto.
  - intros _ p. rewrite votes_after_keys, Hvotes.
    rewrite (dict_keys_perm _ _ (shuffled_perm (answers (game w)) w)).
    unfold dict_keys at 2. simpl. rewrite elem_of_nil. naive_solver.
  - rewrite Hs. done.
Qed.

Lemma session_inv_select_answer index w :
  session_inv (game w) → is_Some (question_setter (game w)) →
  session_inv (game (select_answer index w).1).
Proof.
  intros Hinv Hs.
  destruct (Z.lt_ge_cases index 1) as [Hlo|Hlo].
  { by rewrite select_answer_low. }
  destruct (Z.lt_ge_cases (len (default [] (answer_selection_list (game w))))
              index) as [Hhi|Hhi].
  { rewrite select_answer_high by lia. done. }
  destruct (lookup_lt_is_Some_2
              (default [] (answer_selection_list (game w)))
              (Z.to_nat (index - 1))) as [[chosen text] Hk].
  { unfold len in Hhi. lia. }
  rewrite (select_answer_selects index w chosen text) by (done || lia).
  simpl. destruct (answer_selection_list (game w)) as [l|] eqn:Hl;
    simpl in *; [|done].
  eapply session_inv_voting_opened; eauto.
  by eapply dict_keys_lookup.
Qed.

Lemma answer_accepted_inv m g :
  answer_accepted m g = true →
  truthy_str (question g) = true ∧
  Some (author m) ≠ question_setter g ∧
  truthy_list (answer_selection_list g) = false ∧
  correct_answer g = None.
Proof.
  unfold answer_accepted.
  rewrite !andb_true_iff, !negb_true_iff, orb_false_iff.
  intros [[Hq Hs] [Hp Hc]]. split_and!; try done.
  - by apply bool_decide_eq_false in Hs.
  - apply bool_decide_eq_false in Hc.
    destruct (correct_answer g); [|done]. destruct Hc. eauto.
Qed.

Lemma session_inv_answer_recorded m w :
  answer_accepted m (game w) = true →
  session_inv (game w) → session_inv (game (answer_recorded m w)).
Proof.
  intros (Hq & Hs & Hp & Hc)%answer_accepted_inv Hinv.
  destruct Hinv. split; simpl; try done.
  - rewrite Hc. done.
  - intros l p Hl Hin. rewrite Hl in Hp.
    destruct l; [|done]. by apply elem_of_nil in Hin.
  - rewrite Hc. intros [? ?]; done.
  - intros s Hsetter. rewrite dict_keys_set. intros [-> | Hin].
    + by rewrite Hsetter in Hs.
    + by eapply inv_setter0.
  - by apply dict_keys_set_NoDup.
Qed.

Lemma session_inv_selection_requested s w :
  correct_answer (game w) = None →
  session_inv (game w) → session_inv (game (selection_requested s w)).
Proof.
  intros Hc Hinv. destruct Hinv. split; simpl; try done.
  intros l p [= <-].
  by rewrite (dict_keys_perm _ _ (shuffled_perm (answers (game w)) w)).
Qed.

Lemma handle_player_message_cases m w :
  handle_player_message m w = (w, Ok tt) ∨
  handle_player_message m w = (w, Raise ValueError) ∨
  (∃ index, Some (author m) = question_setter (game w) ∧
            handle_player_message m w = select_answer index w) ∨
  (answer_accepted m (game w) = true ∧
   handle_player_message m w =
     if len (answers (game (answer_recorded m w)))
        =? len (players (game w)) - 1
     then request_answer_selection (answer_recorded m w)
     else (answer_recorded m w, Ok tt)).
Proof.
  destruct (answer_accepted m (game w)) eqn:Hacc.
  { right; right; right. split; [done|].
    by apply handle_player_message_accepted. }
  destruct (truthy_str (question (game w))) eqn:Hq;
    [|left; by apply handle_player_message_no_question].
  destruct (decide (Some (author m) = question_setter (game w))) as [Hs|Hs].
  - destruct (handle_player_message_setter m w Hs)
      as [H | [H | (index & _ & _ & H)]]; [by left|by right; left|].
    right; right; left. by exists index.
  - left. apply handle_player_message_late; [done|].
    unfold answer_accepted in Hacc. rewrite Hq in Hacc.
    rewrite bool_decide_false in Hacc by done. simpl in Hacc.
    by apply negb_false_iff in Hacc.
Qed.

Lemma session_inv_handle_player_message m w :
  session_inv (game w) → session_inv (game (handle_player_message m w).1).
Proof.
  intros Hinv.
  destruct (handle_player_message_cases m w)
    as [-> | [-> | [(index & Hs & ->) | [Hacc ->]]]]; simpl; try done.
  - apply session_inv_select_answer; [done|]. rewrite <- Hs. eauto.
  - pose proof (session_inv_answer_recorded m w Hacc Hinv) as Hrec.
    destruct (_ =? _); [|done].
    destruct (question_setter (game (answer_recorded m w))) as [s|] eqn:Hs.
    + rewrite (request_answer_selection_spec _ s Hs).
      apply session_inv_selection_requested; [|done].
      simpl. by apply answer_accepted_inv in Hacc as (_ & _ & _ & ?).
    + by rewrite request_answer_selection_idle.
Qed.

Lemma handle_reaction_cases ev w :
  handle_reaction ev w = (w, Ok tt) ∨
  handle_reaction ev w = (w, Raise StopIteration) ∨
  ∃ voter spent chosen,
    valid_vote ev (game w) voter spent chosen ∧
    message_id ev ∈ dict_keys (vote_messages (game w)) ∧
    handle_reaction ev w = vote_outcome voter spent chosen ev w.
Proof.
  destruct (correct_answer (game w)) as [chosen|] eqn:Hc;
    [|left; by apply handle_reaction_closed].
  destruct (member ev) as [voter|] eqn:Hm;
    [|left; by apply handle_reaction_no_member].
  destruct (dict_get voter (votes (game w))) as [spent|] eqn:Hv; cycle 1.
  { left. apply (handle_reaction_non_voter _ _ voter); [done|].
    rewrite <- dict_get_Some_keys, Hv. by intros [? ?]. }
  assert ((emoji ev = keycap_1 ∨ emoji ev = keycap_2) ∨
          (emoji ev ≠ keycap_1 ∧ emoji ev ≠ keycap_2)) as [He|[He1 He2]]
    by (destruct (emoji ev); auto); cycle 1.
  { left. by apply handle_reaction_other_emoji. }
  assert (valid_vote ev (game w) voter spent chosen) as Hvalid by done.
  destruct (decide (message_id ev ∈ dict_keys (vote_messages (game w))))
    as [Hid|Hid].
  - right; right. exists voter, spent, chosen. split_and!; [done..|].
    by apply handle_reaction_counted.
  - right; left. by eapply handle_reaction_unresolved.
Qed.

Lemma session_inv_vote_counted voter spent e w :
  dict_get voter (votes (game w)) = Some spent →
  (question_setter (game w) = None →
   unfinished_voter (dict_set voter (spent + credit e) (votes (game w))) = None) →
  session_inv (game w) → session_inv (game (vote_counted voter spent e w)).
Proof.
  intros Hv Hdone Hinv.
  assert (voter ∈ dict_keys (votes (game w))) as Hin
    by (apply dict_get_Some_keys; eauto).
  destruct Hinv. split; simpl; try done.
  - intros Hc. destruct (inv_closed0 Hc) as [Hvs _].
    rewrite Hvs in Hin. by apply elem_of_nil in Hin.
  - intros Hc p. rewrite dict_keys_set_present by done. by apply inv_voters0.
  - auto.
Qed.

Lemma session_inv_set_question_setter_None g :
  unfinished_voter (votes g) = None →
  session_inv g → session_inv (set_question_setter None g).
Proof. intros Hdone []. split; simpl; done. Qed.

Lemma session_inv_vote_outcome voter spent chosen ev w :
  valid_vote ev (game w) voter spent chosen →
  session_inv (game w) →
  session_inv (game (vote_outcome voter spent chosen ev w).1).
Proof.
  intros (Hc & He & Hm & Hv) Hinv. unfold vote_outcome.
  destruct (unfinished_voter (votes (game (vote_counted _ _ _ _))))
    as [late|] eqn:Hlate; simpl in Hlate.
  - simpl fst. apply session_inv_vote_counted; [done| |done].
    intros Hs. exfalso.
    rewrite unfinished_voter_more in Hlate; [done|apply credit_nonneg|done|].
    apply (inv_done _ Hinv); [done|]. rewrite Hc. eauto.
  - assert (session_inv (game (vote_counted voter spent (emoji ev) w)))
      as Hcounted by (apply session_inv_vote_counted; done).
    destruct (dict_get chosen (answers (game w))); simpl fst; [|done].
    simpl. by apply session_inv_set_question_setter_None.
Qed.

Lemma session_inv_handle_reaction ev w :
  session_inv (game w) → session_inv (game (handle_reaction ev w).1).
Proof.
  intros Hinv.
  destruct (handle_reaction_cases ev w)
    as [-> | [-> | (voter & spent & chosen & Hvalid & _ & ->)]]; try done.
  by apply session_inv_vote_outcome.
Qed.

Lemma session_inv_exec ev w :
  session_inv (game w) → session_inv (game (exec ev w)).
Proof.
  intros Hinv. unfold exec. destruct ev as [ps|m|m|e]; simpl.
  - by apply session_inv_add_players.
  - by apply session_inv_handle_channel_message.
  - by apply session_inv_handle_player_message.
  - by apply session_inv_handle_reaction.
Qed.

Lemma reachable_inv w : reachable w → session_inv (game w).
Proof.
  induction 1 as [w Hfresh|w ev _ IH].
  - rewrite Hfresh. apply session_inv_new.
  - by apply session_inv_exec.
Qed.

Lemma reachable_run evs w : reachable w → reachable (run evs w).
Proof.
  revert w. induction evs as [|ev evs IH]; intros w Hw; simpl; [done|].
  apply IH. by apply reachable_step.
Qed.

Lemma reachable_new_world draws : reachable (new_world draws).
Proof. by apply reachable_fresh. Qed.

Lemma reachable_world_voting : reachable world_voting.
Proof. apply reachable_run, reachable_new_world. Qed.

Lemma reachable_world_voted : reachable world_voted.
Proof. apply reachable_run, reachable_new_world. Qed.

(** ** The voters of a round *)

(** C1, as the specification states it, fails: in the round of Alice (the
    setter), Bob and Carol, voting is open with counters for Bob and Carol
    only, so the counters' keys are not the roster, and the round is
    completed by the votes of Bob and Carol alone. *)
Lemma voters_are_not_the_roster :
  reachable world_voting ∧
  is_Some (correct_answer (game world_voting)) ∧
  players (game world_voting) = [alice; bob; carol] ∧
  question_setter (game world_voting) = Some alice ∧
  (alice ∉ dict_keys (votes (game world_voting))) ∧
  votes (game world_voted) = [(carol, 2); (bob, 2)] ∧
  question_setter (game world_voted) = None ∧
  (¬ (∀ w, reachable w → is_Some (correct_answer (game w)) →
           ∀ p, p ∈ dict_keys (votes (game w)) ↔ p ∈ players (game w))).
Proof.
  assert (alice ∉ dict_keys (votes (game world_voting))) as Hout.
  { vm_compute. intros Hin. repeat (apply elem_of_cons in Hin as [?|Hin]; [done|]).
    by apply elem_of_nil in Hin. }
  split_and!; [apply reachable_world_voting| | | |done| | |].
  - exists bob. reflexivity.
  - reflexivity.
  - reflexivity.
  - reflexivity.
  - reflexivity.
  - intros Hall. apply Hout.
    apply (Hall world_voting reachable_world_voting).
    + exists bob. reflexivity.
    + apply list_elem_of_here.
Qed.

(** C1, amended: while voting is open, the voters with a counter are exactly
    the players who handed in an answer, and the setter is none of them. *)
Theorem voters_are_the_answerers w :
  reachable w → is_Some (correct_answer (game w)) →
  (∀ p, p ∈ dict_keys (votes (game w)) ↔ p ∈ dict_keys (answers (game w))) ∧
  (∀ s, question_setter (game w) = Some s → s ∉ dict_keys (votes (game w))).
Proof.
  intros Hw Hopen. pose proof (reachable_inv w Hw) as Hinv.
  split; [by apply (inv_voters _ Hinv)|].
  intros s Hs. rewrite (inv_voters _ Hinv Hopen). by apply (inv_setter _ Hinv).
Qed.

Lemma voters_are_the_answerers_witness :
  (∀ p, p ∈ dict_keys (votes (game world_voting))
        ↔ p ∈ dict_keys (answers (game world_voting))) ∧
  (∀ s, question_setter (game world_voting) = Some s →
        s ∉ dict_keys (votes (game world_voting))).
Proof.
  apply (voters_are_the_answerers world_voting).
  - apply reachable_run, reachable_fresh. reflexivity.
  - vm_compute. eexists. reflexivity.
Defined.

(** ** Votes *)

(** C2: a vote that voting would count, but whose message is none of the
    vote prompts, is not dropped in silence: the search for the message has
    no default and raises StopIteration. The session is left as it was. *)
Theorem unresolved_vote_raises ev w voter spent chosen :
  valid_vote ev (game w) voter spent chosen →
  message_id ev ∉ dict_keys (vote_messages (game w)) →
  handle_reaction ev w = (w, Raise StopIteration).
Proof. apply handle_reaction_unresolved. Qed.

Lemma unresolved_vote_raises_witness :
  handle_reaction stray_vote world_voting = (world_voting, Raise StopIteration).
Proof.
  apply (unresolved_vote_raises stray_vote world_voting bob 0 bob).
  - repeat split; try reflexivity. right. reflexivity.
  - vm_compute. intros Hin.
    repeat (apply elem_of_cons in Hin as [Hin|Hin]; [discriminate Hin|]).
    by apply elem_of_nil in Hin.
Defined.

(** C5: a counted vote is added to the voter's points. If that leaves every
    voter with two points or more, the round is completed: the answer is
    revealed and the setter cleared, the scores stay as they are. If some
    voter is still below two, nothing else changes and the setter stays
    set. *)
Theorem round_completes_when_all_voted ev w voter spent chosen :
  reachable w →
  valid_vote ev (game w) voter spent chosen →
  message_id ev ∈ dict_keys (vote_messages (game w)) →
  let counted := vote_counted voter spent (emoji ev) w in
  let w' := (handle_reaction ev w).1 in
  (handle_reaction ev w).2 = Ok tt ∧
  scores (game w') = scores (game w) ∧
  votes (game w') = dict_set voter (spent + credit (emoji ev)) (votes (game w)) ∧
  ((∀ p n, dict_get p (votes (game counted)) = Some n → 2 <= n) →
   question_setter (game w') = None ∧
   ∃ text, dict_get chosen (answers (game w)) = Some text ∧
           w' = round_completed text chosen counted) ∧
  ((∃ p n, dict_get p (votes (game counted)) = Some n ∧ n < 2) →
   w' = counted ∧
   question_setter (game w') = question_setter (game w) ∧
   is_Some (question_setter (game w'))).
Proof.
  intros Hw Hvalid Hid counted w'.
  pose proof (reachable_inv w Hw) as Hinv.
  pose proof Hvalid as (Hc & He & Hm & Hv).
  destruct (dict_get_Some_keys chosen (answers (game w))) as [_ Hlookup].
  destruct (Hlookup (inv_chosen _ Hinv chosen Hc)) as [text Htext].
  subst w'. rewrite (handle_reaction_counted ev w voter spent chosen Hvalid Hid).
  unfold vote_outcome. fold counted. rewrite Htext.
  destruct (unfinished_voter (votes (game counted))) as [late|] eqn:Hlate.
  - split_and!; try done.
    + intros Hall. apply unfinished_voter_None in Hall. congruence.
    + intros _. split_and!; try done. simpl.
      destruct (question_setter (game w)) as [s|] eqn:Hs; [eauto|].
      exfalso. subst counted. simpl in Hlate.
      rewrite unfinished_voter_more in Hlate;
        [done|apply credit_nonneg|done|].
      apply (inv_done _ Hinv); [done|]. rewrite Hc. eauto.
  - split_and!; try done.
    + intros _. split; [done|]. by exists text.
    + intros (p & n & Hp & Hn). rewrite unfinished_voter_None in Hlate.
      specialize (Hlate p n Hp). lia.
Qed.

Lemma round_completes_when_all_voted_witness :
  (handle_reaction bob_vote world_voting).2 = Ok tt ∧
  question_setter (game (handle_reaction bob_vote world_voting).1)
    = Some alice.
Proof.
  pose proof (round_completes_when_all_voted bob_vote world_voting bob 0 bob)
    as H.
  destruct H as (Hok & _ & _ & _ & Hopen).
  - apply reachable_run, reachable_fresh. reflexivity.
  - repeat split; try reflexivity. right. reflexivity.
  - vm_compute. apply list_elem_of_further, list_elem_of_here.
  - split; [exact Hok|].
    destruct Hopen as (_ & Hsame & _).
    + exists carol, 0. split; [reflexivity|lia].
    + rewrite Hsame. reflexivity.
Defined.

(** ** Rounds *)

Lemma py_index_nil {A} (i : Z) : py_index (@nil A) i = None.
Proof. unfold py_index. simpl. by repeat case_match. Qed.

(** C3: on an empty roster [start_round] is no safe no-op: it moves the
    cursor and then raises IndexError when it indexes the roster. *)
Theorem start_round_empty_roster_raises w :
  players (game w) = [] → question_setter (game w) = None →
  (start_round w).2 = Raise IndexError ∧
  (setter_index (game w) = -1 → setter_index (game (start_round w).1) = 0).
Proof.
  intros Hps Hs.
  rewrite start_round_raises; [| done |].
  - split; [done|]. simpl. unfold next_index. rewrite Hps. intros ->. done.
  - rewrite Hps. apply py_index_nil.
Qed.

Lemma start_round_empty_roster_raises_witness :
  (start_round (new_world zero_draws)).2 = Raise IndexError ∧
  setter_index (game (start_round (new_world zero_draws)).1) = 0.
Proof.
  destruct (start_round_empty_roster_raises (new_world zero_draws)) as [Hr Hi].
  - reflexivity.
  - reflexivity.
  - split; [exact Hr|]. apply Hi. reflexivity.
Defined.

(** ** Selection *)

(** C6: with [n] entries in the selection list (none when there is no list),
    [select_answer 0] and [select_answer (n + 1)] change nothing and raise
    nothing, and [select_answer k] for [1 <= k <= n] takes the player of the
    [k]-th entry as the correct answer's author and clears the list. *)
Theorem select_answer_bounds w :
  let pool := default [] (answer_selection_list (game w)) in
  select_answer 0 w = (w, Ok tt) ∧
  select_answer (len pool + 1) w = (w, Ok tt) ∧
  ∀ k, 1 <= k <= len pool →
    ∃ chosen text,
      pool !! Z.to_nat (k - 1) = Some (chosen, text) ∧
      (select_answer k w).2 = Ok tt ∧
      correct_answer (game (select_answer k w).1) = Some chosen ∧
      answer_selection_list (game (select_answer k w).1) = None.
Proof.
  intros pool. split_and!.
  - by apply select_answer_low.
  - apply select_answer_high. fold pool. lia.
  - intros k Hk.
    destruct (lookup_lt_is_Some_2 pool (Z.to_nat (k - 1)))
      as [[chosen text] Hlookup].
    { unfold len in Hk. lia. }
    exists chosen, text. split; [done|].
    by rewrite (select_answer_selects k w chosen text Hk Hlookup).
Qed.

Lemma select_answer_bounds_witness :
  (select_answer 2 world_answered).2 = Ok tt ∧
  correct_answer (game (select_answer 2 world_answered).1) = Some bob ∧
  answer_selection_list (game (select_answer 2 world_answered).1) = None.
Proof.
  destruct (select_answer_bounds world_answered) as (_ & _ & Hk).
  destruct (Hk 2) as (chosen & text & Hlookup & Hok & Hchosen & Hpool).
  - vm_compute. split; discriminate.
  - split; [exact Hok|]. split; [|exact Hpool].
    rewrite Hchosen. vm_compute in Hlookup.
    injection Hlookup as <- _. reflexivity.
Defined.

(** ** The roster *)

Lemma newcomers_distinct roster l :
  newcomers roster l = filter (fun q => q ∉ roster) (distinct_in_order l).
Proof.
  revert roster. induction l as [|p l IH]; intros roster; simpl; [done|].
  rewrite filter_cons, list_filter_filter.
  destruct (bool_decide_reflect (p ∈ roster)) as [Hin|Hin].
  - rewrite decide_False by (intros ?; done). rewrite IH.
    apply list_filter_iff. intros q. split; [|by intros [? _]].
    intros Hq. split; [done|]. by intros ->.
  - rewrite decide_True by done. f_equal. rewrite IH.
    apply list_filter_iff. intros q.
    rewrite elem_of_app, list_elem_of_singleton. naive_solver.
Qed.

Lemma newcomers_app roster a b :
  newcomers roster (a ++ b) =
    newcomers roster a ++ newcomers (roster ++ newcomers roster a) b.
Proof.
  revert roster. induction a as [|p a IH]; intros roster; simpl.
  - by rewrite app_nil_r.
  - destruct (bool_decide (p ∈ roster)); [apply IH|].
    rewrite IH. simpl. by rewrite <- app_assoc.
Qed.

Lemma distinct_in_order_elem p l : p ∈ distinct_in_order l ↔ p ∈ l.
Proof.
  induction l as [|q l IH]; simpl; [done|].
  rewrite !elem_of_cons, list_elem_of_filter, IH.
  destruct (decide (p = q)); naive_solver.
Qed.

Lemma start_round_players w :
  players (game (start_round w).1) = players (game w).
Proof.
  destruct (start_round_cases w) as [-> | [(p & w' & _ & -> & Hg) | [_ ->]]];
    simpl; [done| |done].
  by rewrite Hg.
Qed.

Lemma start_round_scores w :
  scores (game (start_round w).1) = scores (game w).
Proof.
  destruct (start_round_cases w) as [-> | [(p & w' & _ & -> & Hg) | [_ ->]]];
    simpl; [done| |done].
  by rewrite Hg.
Qed.

Lemma add_players_players ps w :
  players (game (add_players ps w).1) =
    players (game w) ++ newcomers (players (game w)) ps.
Proof.
  rewrite add_players_spec. destruct (auto_start _).
  - rewrite start_round_players. simpl. apply joined_players.
  - simpl. apply joined_players.
Qed.

Lemma joined_scores ps g p :
  p ∈ players g → dict_get p (scores (joined ps g)) = dict_get p (scores g).
Proof.
  revert g. induction ps as [|q ps IH]; intros g Hp; simpl; [done|].
  destruct (bool_decide_reflect (q ∈ players g)) as [Hq|Hq]; [by apply IH|].
  rewrite IH; simpl.
  - apply dict_get_set_ne. by intros ->.
  - apply elem_of_app. by left.
Qed.

Lemma py_index_next_index g :
  players g ≠ [] → -1 <= setter_index g →
  ∃ p, py_index (players g) (next_index g) = Some p ∧
       players g !! Z.to_nat (next_index g) = Some p.
Proof.
  intros Hne Hidx.
  assert (0 < len (players g)) as Hlen.
  { unfold len. destruct (players g); [done|]. simpl. lia. }
  assert (0 <= next_index g < len (players g)) as Hrange.
  { unfold next_index.
    destruct (Z.geb_spec (setter_index g + 1) (len (players g))); lia. }
  rewrite py_index_in_range by done.
  destruct (lookup_lt_is_Some_2 (players g) (Z.to_nat (next_index g)))
    as [p Hp]; [unfold len in *; lia|].
  by exists p.
Qed.

Lemma add_players_ok ps w :
  session_inv (game w) → (add_players ps w).2 = Ok tt.
Proof.
  intros Hinv. rewrite add_players_spec.
  destruct (auto_start _) eqn:Hauto; [|done].
  unfold auto_start in Hauto. apply andb_true_iff in Hauto as [Hs Hlen].
  apply negb_true_iff, bool_decide_eq_false in Hs.
  pose proof (session_inv_joined ps _ Hinv) as Hj.
  destruct (py_index_next_index (joined ps (game w))) as (p & Hp & _).
  - intros Hnil. rewrite Hnil in Hlen. done.
  - apply (inv_cursor _ Hj).
  - rewrite (start_round_starts _ p); [done| |done].
    simpl. destruct (question_setter (joined ps (game w))); [|done].
    destruct Hs. eauto.
Qed.

Lemma run_joins_players pss w :
  players (game (run (map Join pss) w)) =
    players (game w) ++ newcomers (players (game w)) (concat pss).
Proof.
  revert w. induction pss as [|ps pss IH]; intros w; simpl.
  - by rewrite app_nil_r.
  - rewrite IH. unfold exec. simpl.
    by rewrite add_players_players, newcomers_app, app_assoc.
Qed.

Lemma run_joins_raise_nothing pss w :
  session_inv (game w) → raised (map Join pss) w = [].
Proof.
  revert w. induction pss as [|ps pss IH]; intros w Hinv; simpl; [done|].
  pose proof (add_players_ok ps w Hinv) as Hok.
  pose proof (session_inv_add_players ps w Hinv) as Hinv'.
  destruct (add_players ps w) as [w' r]. simpl in *. subst r. by apply IH.
Qed.

(** C7: after any sequence of joins to a new session the roster holds each
    distinct player once, at the place of the first mention, with score 0,
    and no join raised; and a join never moves a player who is in the roster
    already, nor touches that player's score. *)
Theorem joins_keep_roster_distinct :
  (∀ pss w, fresh w →
     let w' := run (map Join pss) w in
     raised (map Join pss) w = [] ∧
     players (game w') = distinct_in_order (concat pss) ∧
     NoDup (players (game w')) ∧
     (∀ p, p ∈ players (game w') ↔ p ∈ concat pss) ∧
     (∀ p, p ∈ players (game w') → dict_get p (scores (game w')) = Some 0)) ∧
  (∀ w ps i p, reachable w → players (game w) !! i = Some p →
     (add_players ps w).2 = Ok tt ∧
     players (game (add_players ps w).1) !! i = Some p ∧
     dict_get p (scores (game (add_players ps w).1))
       = dict_get p (scores (game w))).
Proof.
  split.
  - intros pss w Hfresh w'.
    assert (reachable w') as Hw' by (by apply reachable_run, reachable_fresh).
    pose proof (reachable_inv _ Hw') as Hinv.
    assert (players (game w') = distinct_in_order (concat pss)) as Hps.
    { subst w'. rewrite run_joins_players, Hfresh. simpl.
      rewrite newcomers_distinct.
      induction (distinct_in_order (concat pss)) as [|q l IHl]; [done|].
      rewrite filter_cons_True by (by intros ?%elem_of_nil). by rewrite IHl. }
    split_and!.
    + apply run_joins_raise_nothing. rewrite Hfresh. apply session_inv_new.
    + done.
    + apply (inv_roster _ Hinv).
    + intros p. rewrite Hps. apply distinct_in_order_elem.
    + apply (inv_scores _ Hinv).
  - intros w ps i p Hw Hi.
    pose proof (reachable_inv _ Hw) as Hinv. split_and!.
    + by apply add_players_ok.
    + rewrite add_players_players. by apply lookup_app_l_Some.
    + rewrite add_players_spec. destruct (auto_start _).
      * rewrite start_round_scores. simpl. apply joined_scores.
        by eapply list_elem_of_lookup_2.
      * simpl. apply joined_scores. by eapply list_elem_of_lookup_2.
Qed.

Lemma joins_keep_roster_distinct_witness :
  players (game (run (map Join three_joins) (new_world zero_draws)))
    = [alice; bob; carol; dave] ∧
  players (game (add_players [dave; bob] world_voting).1) !! 1%nat = Some bob.
Proof.
  destruct joins_keep_roster_distinct as [Hseq Hone]. split.
  - destruct (Hseq three_joins (new_world zero_draws)) as (_ & Hps & _).
    + reflexivity.
    + rewrite Hps. reflexivity.
  - destruct (Hone world_voting [dave; bob] 1%nat bob) as (_ & Hpos & _).
    + apply reachable_run, reachable_fresh. reflexivity.
    + reflexivity.
    + exact Hpos.
Defined.

(** ** Joins and the start of a round *)

Lemma setters_prompted_app a b :
  setters_prompted (a ++ b) = setters_prompted a ++ setters_prompted b.
Proof.
  induction a as [|o a IH]; simpl; [done|].
  destruct o as [id []| | |]; simpl; by rewrite ?IH.
Qed.


(** After the round of Alice, Bob and Carol is completed the roster has
    three members and no setter is active; a join of Dave then starts the
    second round, with Bob as the setter. *)
Example join_after_a_completed_round :
  reachable world_voted ∧
  length (players (game world_voted)) = 3%nat ∧
  question_setter (game world_voted) = None ∧
  setters_prompted (sent world_voted) = [alice] ∧
  round_started_by [dave] world_voted ∧
  question_setter (game (add_players [dave] world_voted).1) = Some bob.
Proof.
  split_and!; [apply reachable_world_voted|reflexivity..| |reflexivity].
  exists bob. reflexivity.
Qed.



(** ** Answers *)

Lemma dict_get_NoDup {K V} `{EqDecision K} (d : dict K V) k v :
  NoDup (dict_keys d) → (k, v) ∈ d → dict_get k d = Some v.
Proof.
  unfold dict_keys. induction d as [|[k0 v0] d IH]; simpl.
  - by intros _ ?%elem_of_nil.
  - intros [Hk0 Hnd]%NoDup_cons [Heq|Hin]%elem_of_cons.
    + simplify_eq. by rewrite decide_True.
    + rewrite decide_False; [by apply IH|].
      intros ->. apply Hk0. apply list_elem_of_In, in_map_iff.
      exists (k0, v). split; [done|]. by apply list_elem_of_In.
Qed.

Lemma handle_player_message_accepted_answers m w :
  answer_accepted m (game w) = true →
  (handle_player_message m w).2 = Ok tt ∧
  answers (game (handle_player_message m w).1) =
    dict_set (author m) (strip (content m)) (answers (game w)).
Proof.
  intros Hacc. rewrite handle_player_message_accepted by done.
  destruct (_ =? _); [|done].
  destruct (question_setter (game (answer_recorded m w))) as [s|] eqn:Hs.
  - by rewrite (request_answer_selection_spec _ s Hs).
  - by rewrite request_answer_selection_idle.
Qed.

(** C9: an accepted answer is stored under its author, stripped, in place of
    whatever the author had handed in before: the dictionary holds no other
    entry for the author, and of two accepted answers of one player only the
    second is left. *)
Theorem latest_answer_wins :
  (∀ w m, reachable w → answer_accepted m (game w) = true →
     let w' := (handle_player_message m w).1 in
     (handle_player_message m w).2 = Ok tt ∧
     dict_get (author m) (answers (game w')) = Some (strip (content m)) ∧
     (∀ text, (author m, text) ∈ answers (game w') →
              text = strip (content m)) ∧
     (∀ p, p ≠ author m →
           dict_get p (answers (game w')) = dict_get p (answers (game w)))) ∧
  (∀ w m1 m2, author m1 = author m2 →
     answer_accepted m1 (game w) = true →
     answer_accepted m2 (game (handle_player_message m1 w).1) = true →
     answers (game (handle_player_message m2 (handle_player_message m1 w).1).1)
       = dict_set (author m2) (strip (content m2)) (answers (game w))).
Proof.
  split.
  - intros w m Hw Hacc w'.
    destruct (handle_player_message_accepted_answers m w Hacc) as [Hok Hans].
    assert (reachable w') as Hw' by apply (reachable_step w (PrivateMessage m) Hw).
    pose proof (inv_answers _ (reachable_inv _ Hw')) as Hnd.
    subst w'. split_and!; [done| | |].
    + rewrite Hans. apply dict_get_set_eq.
    + intros text Hin. apply (dict_get_NoDup _ _ _ Hnd) in Hin.
      rewrite Hans, dict_get_set_eq in Hin. congruence.
    + intros p Hp. rewrite Hans. by apply dict_get_set_ne.
  - intros w m1 m2 Hauthor Hacc1 Hacc2.
    destruct (handle_player_message_accepted_answers m1 w Hacc1) as [_ Hans1].
    destruct (handle_player_message_accepted_answers m2 _ Hacc2) as [_ Hans2].
    rewrite Hans2, Hans1, Hauthor. apply dict_set_set.
Qed.

Lemma latest_answer_wins_witness :
  answers (game (handle_player_message (says bob "  calzone ")
                   (handle_player_message (says bob "pizza") world_asked).1).1)
    = [(bob, "calzone"%string)].
Proof.
  destruct latest_answer_wins as [_ Hpair].
  rewrite (Hpair world_asked (says bob "pizza") (says bob "  calzone ")).
  - reflexivity.
  - reflexivity.
  - reflexivity.
  - reflexivity.
Defined.

Lemma start_round_answers w :
  answers (game (start_round w).1) = answers (game w) ∨
  ∃ p g0, game (start_round w).1 = round_reset p g0.
Proof.
  destruct (start_round_cases w) as [-> | [(p & w' & _ & -> & Hg) | [_ ->]]];
    simpl; [by left| |by left].
  right. by exists p, (game w).
Qed.

Lemma add_players_answers ps w :
  answers (game (add_players ps w).1) = answers (game w) ∨
  ∃ p g0, game (add_players ps w).1 = round_reset p g0.
Proof.
  destruct (joined_frame ps (game w)) as (_ & _ & _ & Hans & _).
  rewrite add_players_spec. destruct (auto_start _); [|by left].
  destruct (start_round_answers (announce_joined ps w)) as [Hsame|Hreset];
    [left|by right].
  by rewrite Hsame.
Qed.

Lemma select_answer_answers index w :
  answers (game (select_answer index w).1) = answers (game w).
Proof.
  destruct (Z.lt_ge_cases index 1) as [Hlo|Hlo].
  { by rewrite select_answer_low. }
  destruct (Z.lt_ge_cases (len (default [] (answer_selection_list (game w))))
              index) as [Hhi|Hhi].
  { by rewrite select_answer_high by lia. }
  destruct (lookup_lt_is_Some_2
              (default [] (answer_selection_list (game w)))
              (Z.to_nat (index - 1))) as [[chosen text] Hk].
  { unfold len in Hhi. lia. }
  by rewrite (select_answer_selects index w chosen text) by (done || lia).
Qed.

Lemma vote_outcome_answers voter spent chosen ev w :
  answers (game (vote_outcome voter spent chosen ev w).1) = answers (game w).
Proof.
  unfold vote_outcome. destruct (unfinished_voter _); [done|].
  by destruct (dict_get chosen (answers (game w))).
Qed.

Lemma exec_answers ev w :
  answers (game (exec ev w)) = answers (game w) ∨
  (∃ p g0, game (exec ev w) = round_reset p g0) ∨
  (∃ m, ev = PrivateMessage m ∧ answer_accepted m (game w) = true).
Proof.
  unfold exec. destruct ev as [ps|m|m|e]; simpl.
  - destruct (add_players_answers ps w); auto.
  - destruct (handle_channel_message_cases m w)
      as [-> | [-> | [-> | (_ & _ & ->)]]]; simpl; auto.
    + destruct (start_round_answers w); auto.
    + destruct (add_players_answers (mentions m) w); auto.
  - destruct (handle_player_message_cases m w)
      as [-> | [-> | [(index & Hs & ->) | [Hacc _]]]]; simpl; auto.
    + left. apply select_answer_answers.
    + right; right. by exists m.
  - destruct (handle_reaction_cases e w)
      as [-> | [-> | (voter & spent & chosen & _ & _ & ->)]]; auto.
    left. apply vote_outcome_answers.
Qed.

(** C10: in every reachable state the player whose answer was chosen has an
    entry among the answers; while the setter's list is open or an answer is
    chosen, an event leaves the answers as they are unless it is the reset of
    [start_round], which empties the answers, the list and the choice
    together; so the reveal at the end of a round never fails to find the
    chosen answer. *)
Theorem chosen_answer_is_kept :
  (∀ w c, reachable w → correct_answer (game w) = Some c →
          c ∈ dict_keys (answers (game w))) ∧
  (∀ w ev, reachable w →
     truthy_list (answer_selection_list (game w)) = true
     ∨ is_Some (correct_answer (game w)) →
     answers (game (exec ev w)) = answers (game w) ∨
     ((∃ p g0, game (exec ev w) = round_reset p g0) ∧
      answers (game (exec ev w)) = [] ∧
      answer_selection_list (game (exec ev w)) = None ∧
      correct_answer (game (exec ev w)) = None)) ∧
  (∀ w ev, reachable w → (handle_reaction ev w).2 ≠ Raise KeyError).
Proof.
  split_and!.
  - intros w c Hw. apply (inv_chosen _ (reachable_inv _ Hw)).
  - intros w ev Hw Hopen.
    destruct (exec_answers ev w) as [Hsame | [(p & g0 & Hg) | (m & _ & Hacc)]].
    + by left.
    + right. split; [by exists p, g0|]. by rewrite Hg.
    + apply answer_accepted_inv in Hacc as (_ & _ & Hpool & Hc).
      rewrite Hpool, Hc in Hopen. destruct Hopen as [?|[? ?]]; done.
  - intros w ev Hw. pose proof (reachable_inv _ Hw) as Hinv.
    destruct (handle_reaction_cases ev w)
      as [-> | [-> | (voter & spent & chosen & Hvalid & _ & ->)]]; try done.
    unfold vote_outcome. destruct (unfinished_voter _); [done|].
    destruct Hvalid as (Hc & _).
    destruct (dict_get_Some_keys chosen (answers (game w))) as [_ Hlookup].
    destruct (Hlookup (inv_chosen _ Hinv chosen Hc)) as [text ->]. done.
Qed.

Lemma chosen_answer_is_kept_witness :
  bob ∈ dict_keys (answers (game world_voting)) ∧
  answers (game (exec (PrivateMessage (says carol "sushi")) world_voting))
    = answers (game world_voting).
Proof.
  destruct chosen_answer_is_kept as (Hkey & Hframe & _). split.
  - apply (Hkey world_voting bob).
    + apply reachable_run, reachable_fresh. reflexivity.
    + reflexivity.
  - destruct (Hframe world_voting (PrivateMessage (says carol "sushi")))
      as [Hsame | (_ & Hreset & _)].
    + apply reachable_run, reachable_fresh. reflexivity.
    + right. exists bob. reflexivity.
    + exact Hsame.
    + vm_compute in Hreset. discriminate Hreset.
Defined.

(** ** The rotation of the setter *)

Example two_player_rounds_setters :
  setters_prompted
    (sent (run (Join [alice; bob] :: two_player_rounds) (new_world zero_draws)))
    = [alice; bob; alice].
Proof. reflexivity. Qed.

Lemma quiet_refl w : quiet w w.
Proof. by split. Qed.

Lemma quiet_advanced w w1 w2 : quiet w w1 → advanced w1 w2 → advanced w w2.
Proof. intros [Hi Hs]. unfold advanced. by rewrite Hi, Hs. Qed.

Lemma start_round_cursor w :
  quiet w (start_round w).1 ∨ advanced w (start_round w).1.
Proof.
  destruct (question_setter (game w)) as [s|] eqn:Hs.
  { left. rewrite (start_round_active w s Hs). apply quiet_refl. }
  right. unfold advanced.
  destruct (py_index (players (game w)) (next_index (game w))) as [p|] eqn:Hp.
  - rewrite (start_round_starts w p Hs Hp). simpl.
    fold (next_index (game w)). rewrite Hp. split; [done|].
    rewrite setters_prompted_app. done.
  - rewrite (start_round_raises w Hs Hp). simpl.
    fold (next_index (game w)). by rewrite Hp.
Qed.

Lemma announce_joined_quiet ps w : quiet w (announce_joined ps w).
Proof.
  destruct (joined_frame ps (game w)) as (Hidx & _).
  split; simpl; [done|].
  rewrite setters_prompted_app. simpl. by rewrite app_nil_r.
Qed.

Lemma add_players_cursor ps w :
  quiet w (add_players ps w).1 ∨ advanced w (add_players ps w).1.
Proof.
  rewrite add_players_spec.
  destruct (auto_start _); [|left; apply announce_joined_quiet].
  destruct (start_round_cursor (announce_joined ps w)) as [[Hi Hs]|Hadv].
  - left. destruct (announce_joined_quiet ps w) as [Hi' Hs'].
    split; congruence.
  - right. eapply quiet_advanced; [apply announce_joined_quiet|done].
Qed.

Lemma answer_requests_prompt_nobody g :
  setters_prompted (answer_requests g) = [].
Proof.
  unfold answer_requests. destruct (question_setter g) as [s|]; [|done].
  induction (players g) as [|a l IH]; simpl; [done|].
  by destruct (bool_decide (a = s)).
Qed.

Lemma prompts_posted_prompt_nobody id idx l :
  setters_prompted (prompts_posted id idx l) = [].
Proof.
  revert id idx. induction l as [|[u a] l IH]; intros id idx; simpl; auto.
Qed.

Lemma select_answer_quiet index w : quiet w (select_answer index w).1.
Proof.
  destruct (Z.lt_ge_cases index 1) as [Hlo|Hlo].
  { rewrite select_answer_low by done. apply quiet_refl. }
  destruct (Z.lt_ge_cases (len (default [] (answer_selection_list (game w))))
              index) as [Hhi|Hhi].
  { rewrite select_answer_high by lia. apply quiet_refl. }
  destruct (lookup_lt_is_Some_2
              (default [] (answer_selection_list (game w)))
              (Z.to_nat (index - 1))) as [[chosen text] Hk].
  { unfold len in Hhi. lia. }
  rewrite (select_answer_selects index w chosen text) by (done || lia).
  split; simpl; [done|].
  by rewrite setters_prompted_app, prompts_posted_prompt_nobody, app_nil_r.
Qed.

Lemma handle_player_message_quiet m w :
  quiet w (handle_player_message m w).1.
Proof.
  destruct (handle_player_message_cases m w)
    as [-> | [-> | [(index & _ & ->) | [_ ->]]]]; try apply quiet_refl.
  - apply select_answer_quiet.
  - assert (quiet w (answer_recorded m w)) as Hrec.
    { split; simpl; [done|]. rewrite setters_prompted_app. simpl.
      by rewrite app_nil_r. }
    destruct (_ =? _); [|done].
    destruct (question_setter (game (answer_recorded m w))) as [s|] eqn:Hs.
    + rewrite (request_answer_selection_spec _ s Hs).
      destruct Hrec as [Hi Hp]. split; simpl; [done|].
      rewrite !setters_prompted_app. simpl. by rewrite !app_nil_r.
    + by rewrite request_answer_selection_idle.
Qed.

Lemma handle_reaction_quiet ev w : quiet w (handle_reaction ev w).1.
Proof.
  destruct (handle_reaction_cases ev w)
    as [-> | [-> | (voter & spent & chosen & _ & _ & ->)]];
    try apply quiet_refl.
  unfold vote_outcome. destruct (unfinished_voter _); [by split|].
  destruct (dict_get chosen (answers (game w))); [|by split].
  split; simpl; [done|]. rewrite setters_prompted_app. simpl.
  by rewrite app_nil_r.
Qed.

Lemma exec_cursor ev w : quiet w (exec ev w) ∨ advanced w (exec ev w).
Proof.
  unfold exec. destruct ev as [ps|m|m|e]; simpl.
  - apply add_players_cursor.
  - destruct (handle_channel_message_cases m w)
      as [-> | [-> | [-> | (_ & _ & ->)]]].
    + apply start_round_cursor.
    + apply add_players_cursor.
    + left. apply quiet_refl.
    + left. split; simpl; [done|].
      by rewrite setters_prompted_app, answer_requests_prompt_nobody, app_nil_r.
  - left. apply handle_player_message_quiet.
  - left. apply handle_reaction_quiet.
Qed.

Lemma cursor_wraps (n k : nat) :
  (0 < k)%nat →
  let idx := if decide (n = 0%nat) then -1
             else Z.of_nat ((n - 1) mod k) in
  (if idx + 1 >=? Z.of_nat k then 0 else idx + 1) = Z.of_nat (n mod k).
Proof.
  intros Hk idx. subst idx. destruct (decide (n = 0%nat)) as [->|Hn].
  - rewrite Nat.Div0.mod_0_l. by destruct (-1 + 1 >=? Z.of_nat k).
  - pose proof (Nat.mod_upper_bound (n - 1) k ltac:(lia)) as Hlt.
    assert (n mod k = (((n - 1) mod k) + 1) mod k)%nat as ->.
    { rewrite Nat.Div0.add_mod_idemp_l. f_equal. lia. }
    generalize dependent ((n - 1) mod k)%nat. intros r Hlt.
    destruct (Z.geb_spec (Z.of_nat r + 1) (Z.of_nat k)).
    + replace (r + 1)%nat with k by lia.
      by rewrite Nat.Div0.mod_same.
    + rewrite Nat.mod_small by lia. lia.
Qed.

Lemma cursor_ok_quiet roster w w' :
  cursor_ok roster w → quiet w w' → cursor_ok roster w'.
Proof. intros Hok [Hi Hs]. unfold cursor_ok. by rewrite Hi, Hs. Qed.

Lemma cursor_ok_advanced roster w w' :
  cursor_ok roster w → players (game w') = roster → advanced w w' →
  cursor_ok roster w'.
Proof.
  intros (Hcycle & Hnil & Hcur) Hps. unfold advanced. rewrite Hps.
  destruct (decide (roster = [])) as [->|Hne].
  { rewrite py_index_nil. intros [_ Hs]. unfold cursor_ok. rewrite Hs.
    split_and!; [done|done|by intros ?]. }
  set (setters := setters_prompted (sent w)) in *.
  set (k := length roster) in *.
  assert (0 < k)%nat as Hk.
  { subst k. destruct roster; [done|]. simpl. lia. }
  assert (setter_index (game w)
          = if decide (length setters = 0%nat) then -1
            else Z.of_nat ((length setters - 1) mod k)) as Hidx.
  { destruct (Hcur Hne) as [[-> ->]|[Hs ->]]; [done|].
    rewrite decide_False; [done|]. by destruct setters. }
  pose proof (cursor_wraps (length setters) k Hk) as Hwrap.
  simpl in Hwrap. rewrite <- Hidx in Hwrap. unfold len. fold k.
  rewrite Hwrap.
  pose proof (Nat.mod_upper_bound (length setters) k ltac:(lia)) as Hlt.
  rewrite py_index_in_range by (unfold len; fold k; lia).
  rewrite Nat2Z.id.
  destruct (lookup_lt_is_Some_2 roster (length setters mod k) Hlt) as [p Hp].
  rewrite Hp. intros [Hi Hs]. unfold cursor_ok. rewrite Hs, Hi. fold k.
  split_and!.
  - intros i q Hq. destruct (decide (i < length setters)%nat) as [Hlt'|Hge].
    + rewrite lookup_app_l in Hq by done. by apply Hcycle.
    + rewrite lookup_app_r in Hq by lia.
      destruct (i - length setters)%nat as [|j] eqn:Hj; simpl in Hq; [|done].
      simplify_eq. replace i with (length setters) by lia. done.
  - done.
  - intros _. right. split; [by destruct setters|].
    rewrite length_app. simpl. do 2 f_equal. lia.
Qed.

Lemma cursor_ok_run roster evs w :
  cursor_ok roster w → roster_stays roster evs w →
  cursor_ok roster (run evs w).
Proof.
  revert w. induction evs as [|ev evs IH]; intros w Hok Hstay; simpl; [done|].
  destruct Hstay as [Hps Hstay]. apply IH; [|done].
  destruct (exec_cursor ev w) as [Hq|Ha].
  - by eapply cursor_ok_quiet.
  - by eapply cursor_ok_advanced.
Qed.

Lemma cursor_ok_fresh roster w : fresh w → sent w = [] → cursor_ok roster w.
Proof.
  intros Hfresh Hsent. unfold cursor_ok. rewrite Hsent, Hfresh. simpl.
  split_and!; [done|done|]. intros _. by left.
Qed.

(** X22: in a run from a new session in which the roster is the same after
    every event, the first one included, the setters of the rounds started,
    in order, are the roster taken round and round from its first member,
    wrapping at the end; and a call of [start_round] that finds no setter
    active, a roster that is not empty and a cursor of -1 or more returns
    normally, moves the cursor on, names the player there the setter, leaves
    the question, the answers, the selection list, the chosen answer, the
    vote messages and the votes empty, and keeps the roster and the
    scores. *)
Theorem setters_rotate_round_robin :
  (∀ w roster evs, fresh w → sent w = [] → roster_stays roster evs w →
     ∀ i p, setters_prompted (sent (run evs w)) !! i = Some p →
            roster !! (i mod length roster)%nat = Some p) ∧
  (∀ w, question_setter (game w) = None → players (game w) ≠ [] →
        -1 <= setter_index (game w) →
     ∃ p, players (game w) !! Z.to_nat (next_index (game w)) = Some p ∧
          (start_round w).2 = Ok tt ∧
          let g' := game (start_round w).1 in
          setter_index g' = next_index (game w) ∧
          question_setter g' = Some p ∧
          question g' = None ∧ answers g' = [] ∧
          answer_selection_list g' = None ∧ correct_answer g' = None ∧
          vote_messages g' = [] ∧ votes g' = [] ∧
          players g' = players (game w) ∧ scores g' = scores (game w)).
Proof.
  split.
  - intros w roster evs Hfresh Hsent Hstay.
    apply (cursor_ok_run roster evs w); [|done].
    by apply cursor_ok_fresh.
  - intros w Hs Hne Hidx.
    destruct (py_index_next_index (game w) Hne Hidx) as (p & Hp & Hlookup).
    exists p. split; [done|].
    by rewrite (start_round_starts w p Hs Hp).
Qed.

Lemma setters_rotate_round_robin_witness :
  setters_prompted
    (sent (run (Join [alice; bob] :: two_player_rounds) (new_world zero_draws)))
    !! 2%nat = Some alice ∧
  [alice; bob] !! (2 mod length [alice; bob])%nat = Some alice ∧
  question_setter (game (start_round world_voted).1) = Some bob.
Proof.
  destruct setters_rotate_round_robin as [Hcycle Hreset].
  split; [reflexivity|]. split.
  - apply (Hcycle (new_world zero_draws) [alice; bob]
             (Join [alice; bob] :: two_player_rounds)).
    + reflexivity.
    + reflexivity.
    + vm_compute. repeat split.
    + reflexivity.
  - destruct (Hreset world_voted) as (p & Hp & _ & _ & Hsetter & _).
    + reflexivity.
    + vm_compute. discriminate.
    + vm_compute. discriminate.
    + rewrite Hsetter. vm_compute in Hp. injection Hp as <-. reflexivity.
Defined.

(** * Further properties *)

(** ** Every handler works by elementary changes *)

Lemma joined_steps ps g : rtc game_step g (joined ps g).
Proof.
  revert g. induction ps as [|p ps IH]; intros g; simpl; [done|].
  destruct (bool_decide_reflect (p ∈ players g)) as [Hin|Hin]; [apply IH|].
  eapply rtc_l; [by apply step_join|apply IH].
Qed.

Lemma start_round_steps w :
  rtc game_step (game w) (game (start_round w).1).
Proof.
  destruct (question_setter (game w)) as [s|] eqn:Hs.
  { by rewrite (start_round_active w s Hs). }
  destruct (py_index (players (game w)) (next_index (game w))) as [p|] eqn:Hp.
  - rewrite (start_round_starts w p Hs Hp). simpl.
    by apply rtc_once, step_start.
  - rewrite (start_round_raises w Hs Hp). simpl.
    by apply rtc_once, step_start_failed.
Qed.

Lemma add_players_steps ps w :
  rtc game_step (game w) (game (add_players ps w).1).
Proof.
  rewrite add_players_spec. destruct (auto_start _).
  - etrans; [apply (joined_steps ps)|].
    apply (start_round_steps (announce_joined ps w)).
  - apply joined_steps.
Qed.

Lemma select_answer_cases index w :
  select_answer index w = (w, Ok tt) ∨
  ∃ l chosen text,
    answer_selection_list (game w) = Some l ∧
    1 <= index <= len l ∧
    l !! Z.to_nat (index - 1) = Some (chosen, text) ∧
    select_answer index w = (voting_opened chosen w, Ok tt).
Proof.
  destruct (Z.lt_ge_cases index 1) as [Hlo|Hlo].
  { left. by apply select_answer_low. }
  destruct (Z.lt_ge_cases (len (default [] (answer_selection_list (game w))))
              index) as [Hhi|Hhi].
  { left. apply select_answer_high. lia. }
  destruct (lookup_lt_is_Some_2
              (default [] (answer_selection_list (game w)))
              (Z.to_nat (index - 1))) as [[chosen text] Hk].
  { unfold len in Hhi. lia. }
  right. destruct (answer_selection_list (game w)) as [l|] eqn:Hl;
    simpl in *; [|done].
  exists l, chosen, text. split_and!; try done.
  apply (select_answer_selects index w chosen text); rewrite Hl; simpl; done.
Qed.

Lemma select_answer_steps index w :
  is_Some (question_setter (game w)) →
  rtc game_step (game w) (game (select_answer index w).1).
Proof.
  intros Hs.
  destruct (select_answer_cases index w)
    as [-> | (l & chosen & text & Hl & _ & Hk & ->)]; [done|].
  simpl. apply rtc_once.
  eapply step_select; [done|done|done|apply shuffled_perm].
Qed.

Lemma dict_set_nonempty {K V} `{EqDecision K} (k : K) (v : V) d :
  dict_set k v d ≠ [].
Proof. destruct d as [|[k0 v0] d]; simpl; [done|]. by case_decide. Qed.

Lemma handle_player_message_steps m w :
  rtc game_step (game w) (game (handle_player_message m w).1).
Proof.
  destruct (handle_player_message_cases m w)
    as [-> | [-> | [(index & Hs & ->) | [Hacc ->]]]]; try done.
  - apply select_answer_steps. rewrite <- Hs. eauto.
  - assert (game_step (game w) (game (answer_recorded m w))) as Hrec
      by (by apply step_answer).
    destruct (Z.eqb_spec (len (answers (game (answer_recorded m w))))
                (len (players (game w)) - 1)) as [Hlen|Hlen];
      [|by apply rtc_once].
    destruct (question_setter (game (answer_recorded m w))) as [s|] eqn:Hs.
    + rewrite (request_answer_selection_spec _ s Hs).
      eapply rtc_l; [exact Hrec|]. apply rtc_once.
      apply answer_accepted_inv in Hacc as (_ & _ & Hpool & Hc).
      apply (step_request (game (answer_recorded m w))); simpl; try done.
      * apply dict_set_nonempty.
      * apply shuffled_perm.
    + rewrite request_answer_selection_idle by done. by apply rtc_once.
Qed.

Lemma handle_reaction_steps ev w :
  rtc game_step (game w) (game (handle_reaction ev w).1).
Proof.
  destruct (handle_reaction_cases ev w)
    as [-> | [-> | (voter & spent & chosen & (Hc & He & Hm & Hv) & _ & ->)]];
    try done.
  assert (game_step (game w) (game (vote_counted voter spent (emoji ev) w)))
    as Hvote.
  { apply step_vote; [|done|done]. rewrite Hc. eauto. }
  unfold vote_outcome.
  destruct (unfinished_voter (votes (game (vote_counted _ _ _ _))))
    eqn:Hlate; [by apply rtc_once|].
  destruct (dict_get chosen (answers (game w))) as [text|] eqn:Htext;
    [|by apply rtc_once].
  eapply rtc_l; [exact Hvote|]. apply rtc_once. simpl.
  by apply (step_complete _ chosen text).
Qed.

Lemma handle_channel_message_steps m w :
  rtc game_step (game w) (game (handle_channel_message m w).1).
Proof.
  destruct (handle_channel_message_cases m w)
    as [-> | [-> | [-> | (Hs & Hq & ->)]]].
  - apply start_round_steps.
  - apply add_players_steps.
  - done.
  - simpl. apply rtc_once, step_question; [|done]. rewrite Hs. eauto.
Qed.

Lemma exec_steps ev w : rtc game_step (game w) (game (exec ev w)).
Proof.
  unfold exec. destruct ev as [ps|m|m|e]; simpl.
  - apply add_players_steps.
  - apply handle_channel_message_steps.
  - apply handle_player_message_steps.
  - apply handle_reaction_steps.
Qed.

(** A property of sessions that holds of the new session and is kept by every
    elementary change holds in every reachable state. *)
Lemma invariant_of_steps (I : Game → Prop) :
  I new_game →
  (∀ g g', game_step g g' → I g → I g') →
  ∀ w, reachable w → I (game w).
Proof.
  intros Hnew Hstep w Hw. induction Hw as [w Hfresh|w ev _ IH].
  - by rewrite Hfresh.
  - pose proof (exec_steps ev w) as Hsteps.
    induction Hsteps as [g|g g1 g2 Hs _ IHs]; [done|].
    apply IHs. by eapply Hstep.
Qed.

(** ** Stripped text *)

Lemma lstrip_clean_head s : clean_head (lstrip s).
Proof.
  induction s as [|c s IH]; simpl; [done|].
  destruct (py_isspace c) eqn:Hc; [done|]. simpl. done.
Qed.

Lemma lstrip_id s : clean_head s → lstrip s = s.
Proof. destruct s as [|c s]; simpl; [done|]. by intros ->. Qed.

Lemma rstrip_clean_head s : clean_head s → clean_head (rstrip s).
Proof.
  destruct s as [|c s]; simpl; [done|]. intros Hc.
  destruct (rstrip s); simpl; [|done]. by rewrite Hc.
Qed.

Lemma rstrip_clean_last s : clean_last (rstrip s).
Proof.
  induction s as [|c s IH]; simpl; [done|].
  destruct (rstrip s) as [|c' r] eqn:Hr.
  - destruct (py_isspace c) eqn:Hc; simpl; done.
  - simpl. simpl in IH. done.
Qed.

Lemma rstrip_id s : clean_last s → rstrip s = s.
Proof.
  induction s as [|c s IH]; simpl; [done|].
  destruct s as [|c' s'].
  - simpl. by intros ->.
  - intros Hl. rewrite IH by done. done.
Qed.

Lemma strip_clean s : clean_head (strip s) ∧ clean_last (strip s).
Proof.
  unfold strip. split.
  - apply rstrip_clean_head, lstrip_clean_head.
  - apply rstrip_clean_last.
Qed.

Lemma strip_fixed s : clean_head s → clean_last s → strip s = s.
Proof. intros Hh Hl. unfold strip. rewrite lstrip_id by done. by apply rstrip_id. Qed.

Lemma strip_strip s : strip (strip s) = strip s.
Proof. destruct (strip_clean s). by apply strip_fixed. Qed.

(** ** The second invariant *)

Lemma py_index_nonneg {A} (l : list A) (i : Z) (a : A) :
  0 <= i → py_index l i = Some a → l !! Z.to_nat i = Some a.
Proof.
  intros Hi. unfold py_index.
  destruct (Z.leb_spec 0 i); [|lia]. simpl.
  destruct (i <? Z.of_nat (length l)); [done|].
  destruct (Z.ltb_spec i 0); [lia|]. by rewrite andb_false_r.
Qed.

Lemma votes_after_get l (vs : dict Player Z) p n :
  dict_get p (votes_after l vs) = Some n → n = 0 ∨ dict_get p vs = Some n.
Proof.
  revert vs. induction l as [|[u a] l IH]; intros vs; simpl; [auto|].
  intros [->|Hp]%IH; [by left|].
  destruct (decide (u = p)) as [->|Hne].
  - rewrite dict_get_set_eq in Hp. left. congruence.
  - rewrite dict_get_set_ne in Hp by done. by right.
Qed.

Lemma vote_messages_after_get id l (vm : dict nat Player) i p :
  dict_get i (vote_messages_after id l vm) = Some p →
  p ∈ dict_keys l ∨ dict_get i vm = Some p.
Proof.
  revert id vm. induction l as [|[u a] l IH]; intros id vm; simpl; [auto|].
  unfold dict_keys. simpl. rewrite elem_of_cons.
  intros [Hin|Hp]%IH; [by left; right|].
  destruct (decide (id = i)) as [->|Hne].
  - rewrite dict_get_set_eq in Hp. left; left. congruence.
  - rewrite dict_get_set_ne in Hp by done. by right.
Qed.

Lemma vote_messages_after_length id l (vm : dict nat Player) :
  (∀ k, k ∈ dict_keys vm → (k < id)%nat) →
  length (vote_messages_after id l vm) = (length vm + length l)%nat.
Proof.
  revert id vm. induction l as [|[u a] l IH]; intros id vm Hlt; simpl; [lia|].
  assert (id ∉ dict_keys vm) as Hfresh.
  { intros Hin. apply Hlt in Hin. lia. }
  pose proof (dict_keys_set_absent id u vm Hfresh) as Hkeys.
  rewrite IH.
  - apply (f_equal length) in Hkeys. unfold dict_keys in Hkeys.
    rewrite length_app, !length_map in Hkeys. simpl in Hkeys. lia.
  - intros k. rewrite Hkeys, elem_of_app, list_elem_of_singleton.
    intros [Hin| ->]; [apply Hlt in Hin|]; lia.
Qed.

Lemma round_inv_new : round_inv new_game.
Proof.
  split; simpl; try done.
  intros [Hne|[[? ?]|[? ?]]]; done.
Qed.

Lemma round_inv_join g p :
  p ∉ players g → round_inv g →
  round_inv (set_scores (dict_set p 0 (scores g))
               (set_players (players g ++ [p]) g)).
Proof.
  intros Hp []. split; simpl; try done.
  - intros s [Hi Hs]%r_setter_at0. split; [done|]. by apply lookup_app_l_Some.
  - rewrite dict_keys_set_absent by (by rewrite r_scores0). by rewrite r_scores0.
  - intros q n. destruct (decide (p = q)) as [->|Hne].
    + rewrite dict_get_set_eq. congruence.
    + rewrite dict_get_set_ne by done. apply r_scores_zero0.
Qed.

Lemma round_inv_start g p :
  py_index (players g) (next_index g) = Some p →
  round_inv g → round_inv (round_reset p g).
Proof.
  intros Hp []. pose proof (next_index_lower g r_cursor0) as Hlow.
  split; simpl; try done.
  - lia.
  - intros s [= <-]. split; [done|]. by apply py_index_nonneg.
  - intros [Hne|[[? ?]|[? ?]]]; done.
Qed.

Lemma round_inv_start_failed g :
  question_setter g = None →
  round_inv g → round_inv (set_setter_index (next_index g) g).
Proof.
  intros Hs []. pose proof (next_index_lower g r_cursor0) as Hlow.
  split; simpl; try done.
  - lia.
  - rewrite Hs. done.
Qed.

Lemma round_inv_question g text :
  truthy_str (question g) = false →
  round_inv g → round_inv (set_question (Some (strip text)) g).
Proof.
  intros Hq []. split; simpl; try done.
  - intros Hany. rewrite r_question0 in Hq; done.
  - intros q [= <-]. apply strip_strip.
Qed.

Lemma round_inv_answer g m :
  answer_accepted m g = true →
  round_inv g →
  round_inv (set_answers (dict_set (author m) (strip (content m))
                            (answers g)) g).
Proof.
  intros (Hq & Hs & Hpool & Hc)%answer_accepted_inv [].
  destruct (r_closed0 Hc) as [Hvm Hvs].
  assert (answer_selection_list g = None) as Hnone.
  { destruct (answer_selection_list g) as [l|] eqn:Hl; [|done].
    destruct (r_pool0 l eq_refl) as [Hne _]. by destruct l. }
  split; simpl; try done.
  - rewrite Hnone. done.
  - rewrite Hvm. done.
  - rewrite Hc. intros [? ?]; done.
  - intros p t. destruct (decide (author m = p)) as [<-|Hne].
    + rewrite dict_get_set_eq. intros [= <-]. apply strip_strip.
    + rewrite dict_get_set_ne by done. apply r_stripped0.
Qed.

Lemma round_inv_request g pool :
  correct_answer g = None → answers g ≠ [] → pool ≡ₚ answers g →
  round_inv g → round_inv (set_answer_selection_list (Some pool) g).
Proof.
  intros Hc Hne Hperm []. split; simpl; try done.
  - intros l [= <-]. split; [|done].
    intros ->. apply Permutation_nil_l in Hperm. done.
  - intros _. apply r_question0. by left.
Qed.

Lemma round_inv_select g l chosen id order :
  answer_selection_list g = Some l →
  order ≡ₚ answers g →
  round_inv g →
  round_inv
    (set_vote_messages (vote_messages_after id order (vote_messages g))
       (set_votes (votes_after order (votes g))
          (set_answer_selection_list None
             (set_correct_answer (Some chosen) g)))).
Proof.
  intros Hl Hperm [].
  assert (correct_answer g = None) as Hc by (apply r_exclusive0; eauto).
  destruct (r_closed0 Hc) as [Hvm Hvs]. rewrite Hvm, Hvs.
  split; simpl; try done.
  - intros i p [Hin|Hp]%vote_messages_after_get; [|done].
    by rewrite <- (dict_keys_perm _ _ Hperm).
  - intros _. rewrite vote_messages_after_length.
    + simpl. by apply Permutation_length.
    + by intros k ?%elem_of_nil.
  - intros _. apply r_question0. right; left. eauto.
  - intros p n [->|Hp]%votes_after_get; [lia|done].
Qed.

Lemma round_inv_vote g voter spent e :
  is_Some (correct_answer g) →
  dict_get voter (votes g) = Some spent →
  round_inv g →
  round_inv (set_votes (dict_set voter (spent + credit e) (votes g)) g).
Proof.
  intros [c Hc] Hv []. split; simpl; try done.
  - rewrite Hc. done.
  - intros p n. destruct (decide (voter = p)) as [<-|Hne].
    + rewrite dict_get_set_eq. intros [= <-].
      pose proof (r_votes0 voter spent Hv). pose proof (credit_nonneg e). lia.
    + rewrite dict_get_set_ne by done. apply r_votes0.
Qed.

Lemma round_inv_complete g :
  round_inv g → round_inv (set_question_setter None g).
Proof. intros []. split; simpl; done. Qed.

Lemma round_inv_step g g' : game_step g g' → round_inv g → round_inv g'.
Proof.
  destruct 1; intros Hinv.
  - by apply round_inv_join.
  - by apply round_inv_start.
  - by apply round_inv_start_failed.
  - by apply round_inv_question.
  - by apply round_inv_answer.
  - by apply round_inv_request.
  - by eapply round_inv_select.
  - by apply round_inv_vote.
  - by apply round_inv_complete.
Qed.

Lemma reachable_round_inv w : reachable w → round_inv (game w).
Proof.
  apply (invariant_of_steps round_inv); [apply round_inv_new|].
  apply round_inv_step.
Qed.

(** ** What holds in every reachable state *)

(** X1: while a setter is active, the cursor is a valid index of the roster
    and the setter is the player there. *)
Theorem setter_is_at_the_cursor w s :
  reachable w → question_setter (game w) = Some s →
  0 <= setter_index (game w) < len (players (game w)) ∧
  players (game w) !! Z.to_nat (setter_index (game w)) = Some s ∧
  s ∈ players (game w).
Proof.
  intros Hw Hs.
  destruct (r_setter_at _ (reachable_round_inv w Hw) s Hs) as [Hlow Hat].
  split_and!; [done| |done|by eapply list_elem_of_lookup_2].
  apply lookup_lt_Some in Hat. unfold len. lia.
Qed.

Lemma setter_is_at_the_cursor_witness :
  players (game world_voting) !! Z.to_nat (setter_index (game world_voting))
    = Some alice.
Proof.
  destruct (setter_is_at_the_cursor world_voting alice) as (_ & Hat & _).
  - apply reachable_run, reachable_fresh. reflexivity.
  - reflexivity.
  - exact Hat.
Defined.

(** X2: the scores have one entry for every roster member, in roster order,
    and no event ever moves a score away from 0. *)
Theorem scores_stay_zero w :
  reachable w →
  dict_keys (scores (game w)) = players (game w) ∧
  ∀ p, p ∈ players (game w) → dict_get p (scores (game w)) = Some 0.
Proof.
  intros Hw. pose proof (reachable_round_inv w Hw) as Hinv.
  split; [apply (r_scores _ Hinv)|].
  intros p Hp. rewrite <- (r_scores _ Hinv) in Hp.
  apply dict_get_Some_keys in Hp as [n Hn].
  by rewrite Hn, (r_scores_zero _ Hinv p n Hn).
Qed.

Lemma scores_stay_zero_witness :
  dict_keys (scores (game world_voted)) = [alice; bob; carol] ∧
  dict_get bob (scores (game world_voted)) = Some 0.
Proof.
  destruct (scores_stay_zero world_voted) as [Hkeys Hzero].
  - apply reachable_run, reachable_fresh. reflexivity.
  - split; [rewrite Hkeys; reflexivity|].
    apply Hzero. vm_compute. apply list_elem_of_further, list_elem_of_here.
Defined.

(** X3: whenever the setter's selection list exists it is a non-empty
    rearrangement of the answers handed in, and no answer is chosen yet. *)
Theorem selection_list_is_the_answers w l :
  reachable w → answer_selection_list (game w) = Some l →
  l ≠ [] ∧ l ≡ₚ answers (game w) ∧ correct_answer (game w) = None.
Proof.
  intros Hw Hl. pose proof (reachable_round_inv w Hw) as Hinv.
  destruct (r_pool _ Hinv l Hl) as [Hne Hperm]. split_and!; [done..|].
  apply (r_exclusive _ Hinv). rewrite Hl. eauto.
Qed.

Lemma selection_list_is_the_answers_witness :
  [(carol, "tacos"%string); (bob, "pizza"%string)]
    ≡ₚ answers (game world_answered).
Proof.
  destruct (selection_list_is_the_answers world_answered
              [(carol, "tacos"%string); (bob, "pizza"%string)])
    as (_ & Hperm & _).
  - apply reachable_run, reachable_fresh. reflexivity.
  - reflexivity.
  - exact Hperm.
Defined.

Lemma dict_set_absent {K V} `{EqDecision K} (k : K) (v : V) (d : dict K V) :
  k ∉ dict_keys d → dict_set k v d = d ++ [(k, v)].
Proof.
  unfold dict_keys. induction d as [|[k0 v0] d IH]; simpl; [done|].
  intros [Hk Hin]%not_elem_of_cons. rewrite decide_False by done.
  by rewrite IH.
Qed.

Lemma dict_get_elem {K V} `{EqDecision K} (k : K) (v : V) (d : dict K V) :
  dict_get k d = Some v → (k, v) ∈ d.
Proof.
  induction d as [|[k0 v0] d IH]; simpl; [done|].
  destruct (decide (k = k0)) as [->|Hne].
  - intros [= ->]. apply list_elem_of_here.
  - intros Hget. apply list_elem_of_further. by apply IH.
Qed.

Lemma targets_distinct {K V} (l : list (K * V)) a b p :
  NoDup (map snd l) → (a, p) ∈ l → (b, p) ∈ l → a = b.
Proof.
  induction l as [|[k v] l IH]; simpl.
  - by intros _ ?%elem_of_nil.
  - intros [Hv Hnd]%NoDup_cons Ha Hb.
    assert (∀ c, (c, p) ∈ l → p ∈ map snd l) as Hsnd.
    { intros c Hc. apply list_elem_of_In, in_map_iff. exists (c, p).
      split; [done|]. by apply list_elem_of_In. }
    apply elem_of_cons in Ha as [Ha|Ha]; apply elem_of_cons in Hb as [Hb|Hb].
    + congruence.
    + simplify_eq. destruct Hv. by eapply Hsnd.
    + simplify_eq. destruct Hv. by eapply Hsnd.
    + by apply IH.
Qed.

Lemma vote_messages_after_fresh id l (vm : dict nat Player) :
  (∀ k, k ∈ dict_keys vm → (k < id)%nat) →
  dict_keys (vote_messages_after id l vm) = dict_keys vm ++ seq id (length l) ∧
  map snd (vote_messages_after id l vm) = map snd vm ++ dict_keys l.
Proof.
  revert id vm. induction l as [|[u a] l IH]; intros id vm Hlt; simpl.
  - by rewrite !app_nil_r.
  - assert (id ∉ dict_keys vm) as Hfresh.
    { intros Hin. apply Hlt in Hin. lia. }
    rewrite (dict_set_absent id u vm Hfresh).
    destruct (IH (S id) (vm ++ [(id, u)])) as [Hkeys Hvals].
    { intros k. unfold dict_keys. rewrite map_app, elem_of_app. simpl.
      rewrite list_elem_of_singleton. intros [Hin| ->]; [apply Hlt in Hin|]; lia. }
    rewrite Hkeys, Hvals. unfold dict_keys. rewrite !map_app. simpl.
    by rewrite <- !app_assoc.
Qed.

Lemma prompts_inv_step g g' :
  game_step g g' → round_inv g ∧ prompts_inv g → round_inv g' ∧ prompts_inv g'.
Proof.
  intros Hstep [Hinv Hprompts].
  split; [by eapply round_inv_step|].
  destruct Hstep as [| | | |g m Hacc| |g l k chosen text id order Hs Hl Hk Hperm| |];
    unfold prompts_inv in *; simpl; try done.
  - apply answer_accepted_inv in Hacc as (_ & _ & _ & Hc). rewrite Hc.
    intros [? ?]; done.
  - intros _.
    assert (correct_answer g = None) as Hc
      by (apply (r_exclusive _ Hinv); eauto).
    destruct (r_closed _ Hinv Hc) as [Hvm _]. rewrite Hvm.
    destruct (vote_messages_after_fresh id order [])
      as [Hkeys Hvals]; [by intros k' ?%elem_of_nil|].
    rewrite Hkeys, Hvals. simpl. split.
    + by apply dict_keys_perm.
    + apply NoDup_ListNoDup, List.seq_NoDup.
Qed.

Lemma reachable_prompts_inv w : reachable w → prompts_inv (game w).
Proof.
  intros Hw.
  apply (invariant_of_steps (fun g => round_inv g ∧ prompts_inv g));
    [|apply prompts_inv_step|done].
  split; [apply round_inv_new|]. intros [? ?]; done.
Qed.

(** X4: before an answer is chosen there are no vote messages and no vote
    counters. Once one is chosen, the vote messages have pairwise different
    ids and the players they stand for are the authors of the answers, each
    exactly once: every author of an answer has one vote message and no
    second one. *)
Theorem vote_messages_match_the_answers w :
  reachable w →
  (correct_answer (game w) = None →
   vote_messages (game w) = [] ∧ votes (game w) = []) ∧
  (is_Some (correct_answer (game w)) →
   length (vote_messages (game w)) = length (answers (game w)) ∧
   (∀ id p, dict_get id (vote_messages (game w)) = Some p →
            p ∈ dict_keys (answers (game w))) ∧
   map snd (vote_messages (game w)) ≡ₚ dict_keys (answers (game w)) ∧
   NoDup (dict_keys (vote_messages (game w))) ∧
   ∀ p, p ∈ dict_keys (answers (game w)) →
        ∃ id, dict_get id (vote_messages (game w)) = Some p ∧
              ∀ id', dict_get id' (vote_messages (game w)) = Some p →
                     id' = id).
Proof.
  intros Hw. pose proof (reachable_round_inv w Hw) as Hinv. split.
  - apply (r_closed _ Hinv).
  - intros Hc.
    destruct (reachable_prompts_inv w Hw Hc) as [Hperm Hids].
    split_and!; [by apply (r_prompts _ Hinv)|apply (r_targets _ Hinv)|
                 done|done|].
    intros p Hp. rewrite <- Hperm in Hp.
    apply list_elem_of_In, in_map_iff in Hp as ([id p'] & Heq & Hin).
    simpl in Heq. subst p'. apply list_elem_of_In in Hin.
    exists id. split; [by apply dict_get_NoDup|].
    intros id' Hid'. apply dict_get_elem in Hid'.
    apply (targets_distinct (vote_messages (game w)) id' id p); [|done..].
    apply NoDup_ListNoDup. apply (Permutation_NoDup (Permutation_sym Hperm)).
    apply NoDup_ListNoDup, (inv_answers _ (reachable_inv w Hw)).
Qed.

Lemma vote_messages_match_the_answers_witness :
  map snd (vote_messages (game world_voting))
    ≡ₚ dict_keys (answers (game world_voting)) ∧
  vote_messages (game world_answered) = [].
Proof.
  split.
  - destruct (vote_messages_match_the_answers world_voting) as [_ Hopen].
    + apply reachable_run, reachable_fresh. reflexivity.
    + destruct Hopen as (_ & _ & Hperm & _); [exists bob; reflexivity|].
      exact Hperm.
  - destruct (vote_messages_match_the_answers world_answered) as [Hclosed _].
    + apply reachable_run, reachable_fresh. reflexivity.
    + destruct Hclosed as [Hvm _]; [reflexivity|exact Hvm].
Defined.

(** X5: the question and every stored answer are kept stripped: neither
    begins nor ends with a whitespace character. *)
Theorem stored_text_is_stripped w :
  reachable w →
  (∀ p t, dict_get p (answers (game w)) = Some t →
          clean_head t ∧ clean_last t) ∧
  (∀ q, question (game w) = Some q → clean_head q ∧ clean_last q).
Proof.
  intros Hw. pose proof (reachable_round_inv w Hw) as Hinv. split.
  - intros p t Ht. rewrite <- (r_stripped _ Hinv p t Ht). apply strip_clean.
  - intros q Hq. rewrite <- (r_question_stripped _ Hinv q Hq).
    apply strip_clean.
Qed.

Lemma stored_text_is_stripped_witness :
  clean_head "pizza" ∧ clean_last "pizza".
Proof.
  destruct (stored_text_is_stripped world_voting) as [Hanswers _].
  - apply reachable_run, reachable_fresh. reflexivity.
  - apply (Hanswers bob). reflexivity.
Defined.

(** X6: answers, a selection list or a chosen answer exist only while a
    non-empty question is set. *)
Theorem answers_need_a_question w :
  reachable w →
  answers (game w) ≠ [] ∨ is_Some (answer_selection_list (game w))
  ∨ is_Some (correct_answer (game w)) →
  truthy_str (question (game w)) = true.
Proof. intros Hw. apply (r_question _ (reachable_round_inv w Hw)). Qed.

Lemma answers_need_a_question_witness :
  truthy_str (question (game world_voted)) = true.
Proof.
  apply (answers_need_a_question world_voted).
  - apply reachable_run, reachable_fresh. reflexivity.
  - right; right. exists bob. reflexivity.
Defined.

(** ** What an event can and cannot change *)

Lemma game_step_players g g' :
  game_step g g' → ∃ l, players g' = players g ++ l.
Proof.
  destruct 1; simpl; try (exists []; by rewrite app_nil_r).
  by exists [p].
Qed.

(** X7: no event removes a player from the roster or moves one: the roster
    after an event is the roster before it, with the newcomers at the end. *)
Theorem roster_only_grows ev w :
  ∃ l, players (game (exec ev w)) = players (game w) ++ l.
Proof.
  pose proof (exec_steps ev w) as Hsteps.
  induction Hsteps as [g|g g1 g2 Hs _ [l2 IH]].
  - exists []. by rewrite app_nil_r.
  - destruct (game_step_players _ _ Hs) as [l1 Hl1].
    exists (l1 ++ l2). by rewrite IH, Hl1, app_assoc.
Qed.

Lemma start_round_question w :
  question (game (start_round w).1) = question (game w) ∨
  ∃ p g0, game (start_round w).1 = round_reset p g0.
Proof.
  destruct (start_round_cases w) as [-> | [(p & w' & _ & -> & Hg) | [_ ->]]];
    simpl; [by left| |by left].
  right. by exists p, (game w).
Qed.

Lemma add_players_question ps w :
  question (game (add_players ps w).1) = question (game w) ∨
  ∃ p g0, game (add_players ps w).1 = round_reset p g0.
Proof.
  destruct (joined_frame ps (game w)) as (_ & _ & Hq & _).
  rewrite add_players_spec. destruct (auto_start _); [|by left].
  destruct (start_round_question (announce_joined ps w)) as [Hsame|Hreset];
    [left|by right].
  by rewrite Hsame.
Qed.

(** X8: once a non-empty question is set, no event changes it; it only goes
    away when [start_round] resets the round. *)
Theorem question_is_set_once ev w :
  truthy_str (question (game w)) = true →
  question (game (exec ev w)) = question (game w) ∨
  ∃ p g0, game (exec ev w) = round_reset p g0.
Proof.
  intros Hq. unfold exec. destruct ev as [ps|m|m|e]; simpl.
  - apply add_players_question.
  - destruct (handle_channel_message_cases m w)
      as [-> | [-> | [-> | (_ & Hfalse & _)]]].
    + apply start_round_question.
    + apply add_players_question.
    + by left.
    + congruence.
  - left. destruct (handle_player_message_cases m w)
      as [-> | [-> | [(index & _ & ->) | [_ ->]]]]; try done.
    + destruct (select_answer_cases index w)
        as [-> | (l & chosen & text & _ & _ & _ & ->)]; done.
    + destruct (_ =? _); [|done].
      destruct (question_setter (game (answer_recorded m w))) as [s|] eqn:Hs.
      * by rewrite (request_answer_selection_spec _ s Hs).
      * by rewrite request_answer_selection_idle.
  - left. destruct (handle_reaction_cases e w)
      as [-> | [-> | (voter & spent & chosen & _ & _ & ->)]]; try done.
    unfold vote_outcome. destruct (unfinished_voter _); [done|].
    by destruct (dict_get chosen (answers (game w))).
Qed.

Lemma question_is_set_once_witness :
  question (game (exec (ChannelMessage (says alice "!question other"))
                    world_voting))
    = Some "favorite food"%string.
Proof.
  destruct (question_is_set_once
              (ChannelMessage (says alice "!question other")) world_voting)
    as [Hsame | (p & g0 & Hreset)].
  - reflexivity.
  - rewrite Hsame. reflexivity.
  - apply (f_equal correct_answer) in Hreset. vm_compute in Hreset.
    discriminate Hreset.
Defined.

(** X9: a private message of the setter, sent while the selection list is
    open and numeric for [str.isnumeric], is handed to [select_answer] as the
    number [int] reads; when [int] cannot read it (a superscript or a
    fraction) the handler raises ValueError and the session stays as it
    was. *)
Theorem setter_selection_message m w :
  truthy_str (question (game w)) = true →
  Some (author m) = question_setter (game w) →
  truthy_list (answer_selection_list (game w)) = true →
  isnumeric (content m) = true →
  handle_player_message m w =
    match py_int (content m) with
    | Some index => select_answer index w
    | None => (w, Raise ValueError)
    end.
Proof.
  intros Hq Hs Hpool Hnum. unfold handle_player_message.
  cbv beta iota delta [bind gets ret]. rewrite Hq.
  cbv beta iota delta [negb]. rewrite bool_decide_true by done.
  rewrite Hpool. cbv beta iota delta [negb]. rewrite Hnum.
  by destruct (py_int (content m)).
Qed.

Lemma setter_selection_message_witness :
  handle_player_message (says alice superscript_two) world_answered
    = (world_answered, Raise ValueError) ∧
  correct_answer
    (game (handle_player_message (says alice "002") world_answered).1)
    = Some bob.
Proof.
  split.
  - rewrite (setter_selection_message (says alice superscript_two)
               world_answered); reflexivity.
  - rewrite (setter_selection_message (says alice "002") world_answered);
      reflexivity.
Defined.

(** ** Answers and the selection request *)

(** X10: after an accepted answer the selection list exists exactly when
    the answers now number one less than the roster and a setter is active;
    it is then a rearrangement of the answers. *)
Theorem selection_is_requested_at_the_last_answer m w :
  reachable w → answer_accepted m (game w) = true →
  let w' := (handle_player_message m w).1 in
  (is_Some (answer_selection_list (game w')) ↔
   len (dict_set (author m) (strip (content m)) (answers (game w)))
     = len (players (game w)) - 1 ∧
   is_Some (question_setter (game w))) ∧
  (∀ l, answer_selection_list (game w') = Some l → l ≡ₚ answers (game w')).
Proof.
  intros Hw Hacc w'.
  assert (reachable w') as Hw' by apply (reachable_step w (PrivateMessage m) Hw).
  split; [|intros l Hl; apply (r_pool _ (reachable_round_inv _ Hw') l Hl)].
  assert (answer_selection_list (game w) = None) as Hnone.
  { apply answer_accepted_inv in Hacc as (_ & _ & Hpool & _).
    destruct (answer_selection_list (game w)) as [l|] eqn:Hl; [|done].
    destruct (r_pool _ (reachable_round_inv _ Hw) l Hl) as [Hne _].
    by destruct l. }
  subst w'. rewrite handle_player_message_accepted by done. simpl.
  destruct (Z.eqb_spec
              (len (dict_set (author m) (strip (content m)) (answers (game w))))
              (len (players (game w)) - 1)) as [Hlen|Hlen].
  - destruct (question_setter (game w)) as [s|] eqn:Hs.
    + rewrite (request_answer_selection_spec _ s) by done. simpl.
      split; [intros _; split; eauto|eauto].
    + rewrite request_answer_selection_idle by done. simpl. rewrite Hnone.
      split; [by intros [? ?]|by intros [_ [? ?]]].
  - simpl. rewrite Hnone. split; [by intros [? ?]|by intros [? _]].
Qed.

Lemma selection_is_requested_at_the_last_answer_witness :
  is_Some (answer_selection_list
             (game (handle_player_message (says carol "tacos")
                      world_one_answer).1)).
Proof.
  destruct (selection_is_requested_at_the_last_answer (says carol "tacos")
              world_one_answer) as [[_ Hset] _].
  - apply reachable_run, reachable_fresh. reflexivity.
  - vm_compute. reflexivity.
  - apply Hset. split; [vm_compute; reflexivity|].
    exists alice. vm_compute. reflexivity.
Defined.

(** ** Votes, once more *)

(** X11: the chosen answer is not cleared when a round is completed, so a
    vote counted after that completes the round again: the answer is revealed
    a second time. *)
Theorem vote_after_completion_reveals_again ev w voter spent chosen :
  reachable w → question_setter (game w) = None →
  valid_vote ev (game w) voter spent chosen →
  message_id ev ∈ dict_keys (vote_messages (game w)) →
  ∃ text,
    dict_get chosen (answers (game w)) = Some text ∧
    handle_reaction ev w =
      (round_completed text chosen (vote_counted voter spent (emoji ev) w),
       Ok tt).
Proof.
  intros Hw Hs Hvalid Hid. pose proof (reachable_inv w Hw) as Hinv.
  pose proof Hvalid as (Hc & He & Hm & Hv).
  destruct (dict_get_Some_keys chosen (answers (game w))) as [_ Hlookup].
  destruct (Hlookup (inv_chosen _ Hinv chosen Hc)) as [text Htext].
  exists text. split; [done|].
  rewrite (handle_reaction_counted ev w voter spent chosen Hvalid Hid).
  unfold vote_outcome. simpl.
  rewrite unfinished_voter_more; [by rewrite Htext|apply credit_nonneg|done|].
  apply (inv_done _ Hinv); [done|]. rewrite Hc. eauto.
Qed.

Lemma vote_after_completion_reveals_again_witness :
  ∃ text,
    dict_get bob (answers (game world_voted)) = Some text ∧
    handle_reaction bob_votes_again world_voted =
      (round_completed text bob (vote_counted bob 2 keycap_1 world_voted),
       Ok tt).
Proof.
  apply (vote_after_completion_reveals_again bob_votes_again world_voted bob 2 bob).
  - apply reachable_run, reachable_fresh. reflexivity.
  - reflexivity.
  - repeat split; try reflexivity. left. reflexivity.
  - vm_compute. apply list_elem_of_further, list_elem_of_here.
Defined.

(** X13: a reaction of a player who handed in no answer changes nothing,
    and so does a reaction of the active setter. *)
Theorem only_answerers_vote ev w p :
  reachable w → member ev = Some p →
  p ∉ dict_keys (answers (game w)) ∨ question_setter (game w) = Some p →
  handle_reaction ev w = (w, Ok tt).
Proof.
  intros Hw Hm Hp. pose proof (reachable_inv w Hw) as Hinv.
  assert (p ∉ dict_keys (answers (game w))) as Hout.
  { destruct Hp as [?|Hs]; [done|]. by apply (inv_setter _ Hinv). }
  destruct (correct_answer (game w)) as [c|] eqn:Hc;
    [|by apply handle_reaction_closed].
  apply (handle_reaction_non_voter ev w p Hm).
  rewrite (inv_voters _ Hinv); [done|]. rewrite Hc. eauto.
Qed.

Lemma only_answerers_vote_witness :
  handle_reaction alice_votes world_voting = (world_voting, Ok tt).
Proof.
  apply (only_answerers_vote alice_votes world_voting alice).
  - apply reachable_run, reachable_fresh. reflexivity.
  - reflexivity.
  - right. reflexivity.
Defined.

(** X15: [handle_reaction] touches nothing but the vote counters and the
    setter: the roster, the scores, the cursor, the question, the answers,
    the selection list, the chosen answer and the vote messages stay, the
    counters keep their voters, and the setter stays or is cleared. *)
Theorem handle_reaction_frame ev w :
  let g := game w in
  let g' := game (handle_reaction ev w).1 in
  players g' = players g ∧ scores g' = scores g ∧
  setter_index g' = setter_index g ∧ question g' = question g ∧
  answers g' = answers g ∧
  answer_selection_list g' = answer_selection_list g ∧
  correct_answer g' = correct_answer g ∧
  vote_messages g' = vote_messages g ∧
  dict_keys (votes g') = dict_keys (votes g) ∧
  (question_setter g' = question_setter g ∨ question_setter g' = None).
Proof.
  intros g g'. subst g g'.
  destruct (handle_reaction_cases ev w)
    as [-> | [-> | (voter & spent & chosen & (_ & _ & _ & Hv) & _ & ->)]];
    [by split_and!; auto..|].
  assert (dict_keys (dict_set voter (spent + credit (emoji ev))
                       (votes (game w))) = dict_keys (votes (game w)))
    as Hkeys.
  { apply dict_keys_set_present. apply dict_get_Some_keys. eauto. }
  unfold vote_outcome. destruct (unfinished_voter _);
    [by split_and!; auto|].
  destruct (dict_get chosen (answers (game w))); by split_and!; auto.
Qed.

(** ** Requests and announcements *)

Lemma omap_skip {A B} `{EqDecision A} (s : A) (f : A → B) (l : list A) :
  omap (fun a => if bool_decide (a = s) then None else Some (f a)) l
  = map f (filter (fun a => a ≠ s) l).
Proof.
  induction l as [|a l IH]; [done|].
  rewrite filter_cons. simpl.
  destruct (bool_decide_reflect (a = s)) as [->|Hne].
  - rewrite decide_False by (intros ?; done). exact IH.
  - rewrite decide_True by done. simpl. f_equal. exact IH.
Qed.

Lemma filter_others_length {A} `{EqDecision A} (s : A) (l : list A) :
  NoDup l → s ∈ l →
  length (filter (fun a => a ≠ s) l) = (length l - 1)%nat.
Proof.
  induction 1 as [|a l Ha Hnd IH]; [by intros ?%elem_of_nil|].
  rewrite filter_cons. intros Hin. destruct (decide (a = s)) as [->|Hne].
  - rewrite decide_False by (intros ?; done). simpl. rewrite Nat.sub_0_r.
    clear IH Hin Hnd. induction l as [|b l IHl]; [done|].
    apply not_elem_of_cons in Ha as [Hb Hl].
    rewrite filter_cons_True by done. simpl. by rewrite IHl.
  - rewrite decide_True by done. simpl.
    apply elem_of_cons in Hin as [->|Hin]; [done|].
    rewrite IH by done. destruct l; [by apply elem_of_nil in Hin|simpl; lia].
Qed.

(** X12: [request_answers] asks every roster member but the setter for an
    answer, each once and in roster order, which makes one request less than
    the roster has members, and changes nothing in the session. *)
Theorem answer_requests_skip_the_setter w s :
  reachable w → question_setter (game w) = Some s →
  let others := filter (fun p => p ≠ s) (players (game w)) in
  request_answers w =
    ({| game := game w;
        sent := sent w ++
                map (fun p => DirectMessage p (WhatAnswer s (question (game w))))
                    others;
        next_message_id := next_message_id w;
        rng := rng w; rng_pos := rng_pos w |}, Ok tt) ∧
  length others = (length (players (game w)) - 1)%nat.
Proof.
  intros Hw Hs others. split.
  - rewrite request_answers_spec. unfold answer_requests. rewrite Hs.
    by rewrite omap_skip.
  - apply filter_others_length.
    + apply (inv_roster _ (reachable_inv w Hw)).
    + destruct (r_setter_at _ (reachable_round_inv w Hw) s Hs) as [_ Hat].
      by eapply list_elem_of_lookup_2.
Qed.

Lemma answer_requests_skip_the_setter_witness :
  sent (request_answers world_asked).1 =
    sent world_asked ++
    [DirectMessage bob (WhatAnswer alice (Some "favorite food"%string));
     DirectMessage carol (WhatAnswer alice (Some "favorite food"%string))].
Proof.
  destruct (answer_requests_skip_the_setter world_asked alice) as [Hsent _].
  - apply reachable_run, reachable_fresh. reflexivity.
  - reflexivity.
  - rewrite Hsent. reflexivity.
Defined.

(** X16: [add_players] always posts one announcement, which lists the
    players it really added: the distinct players of its argument who were
    not in the roster, in the order of their first mention. At most the
    prompt of a new round follows it. *)
Theorem join_announces_the_newcomers ps w :
  ∃ rest,
    sent (add_players ps w).1 =
      sent w ++
      ChannelSend (next_message_id w)
        (PlayersAdded (filter (fun q => q ∉ players (game w))
                         (distinct_in_order ps))) :: rest ∧
    (rest = [] ∨
     ∃ p, rest = [ChannelSend (S (next_message_id w)) (SetYourQuestion p)]).
Proof.
  rewrite add_players_spec, <- newcomers_distinct.
  destruct (auto_start _); [|exists []; by split; [|left]].
  set (w1 := announce_joined ps w).
  destruct (question_setter (game w1)) as [s|] eqn:Hs.
  { rewrite (start_round_active w1 s Hs). exists []. by split; [|left]. }
  destruct (py_index (players (game w1)) (next_index (game w1))) as [p|] eqn:Hp.
  - rewrite (start_round_starts w1 p Hs Hp). simpl.
    exists [ChannelSend (S (next_message_id w)) (SetYourQuestion p)].
    split; [by rewrite <- app_assoc|right; by exists p].
  - rewrite (start_round_raises w1 Hs Hp). exists []. by split; [|left].
Qed.

(** ** The question command *)

Lemma question_command_spec a rest w :
  handle_channel_message (question_command a rest) w =
    if truthy_str (question (game w)) then (w, Ok tt)
    else if bool_decide (Some a = question_setter (game w))
         then (question_asked (strip rest) w, Ok tt)
         else (w, Ok tt).
Proof.
  unfold handle_channel_message, question_command, startswith. simpl.
  assert (String.prefix "" rest = true) as -> by (by destruct rest).
  cbv beta iota delta [bind gets ret].
  destruct (truthy_str (question (game w))); [done|].
  destruct (bool_decide (Some a = question_setter (game w))); [|done].
  cbv beta iota delta [negb modify]. by rewrite request_answers_spec.
Qed.

(** X14: a [!question] command of the active setter is taken while no
    non-empty question is set: the text after the command, stripped, becomes
    the question and the answer requests go out. From anybody else, or with a
    non-empty question set, it changes nothing. A blank text is stored as the
    empty question, which does not count as a question: the setter can send
    the command again. *)
Theorem question_command_sets_the_question a rest w :
  (truthy_str (question (game w)) = false →
   question_setter (game w) = Some a →
   handle_channel_message (question_command a rest) w
     = (question_asked (strip rest) w, Ok tt) ∧
   question (game (question_asked (strip rest) w)) = Some (strip rest)) ∧
  (truthy_str (question (game w)) = true ∨ question_setter (game w) ≠ Some a →
   handle_channel_message (question_command a rest) w = (w, Ok tt)) ∧
  (truthy_str (question (game w)) = false →
   question_setter (game w) = Some a → strip rest = EmptyString →
   ∀ rest',
     question
       (game (run [ChannelMessage (question_command a rest);
                   ChannelMessage (question_command a rest')] w))
     = Some (strip rest')).
Proof.
  split_and!.
  - intros Hq Hs. rewrite question_command_spec, Hq.
    by rewrite bool_decide_true.
  - intros Hno. rewrite question_command_spec.
    destruct (truthy_str (question (game w))); [done|].
    destruct Hno as [?|Hne]; [done|].
    by rewrite bool_decide_false.
  - intros Hq Hs Hblank rest'. simpl. unfold exec. simpl.
    rewrite (question_command_spec a rest w), Hq.
    rewrite bool_decide_true by done. simpl.
    rewrite question_command_spec. simpl. rewrite Hblank. simpl.
    by rewrite bool_decide_true.
Qed.

Lemma question_command_sets_the_question_witness :
  question
    (game (run [ChannelMessage (question_command bob "   ");
                ChannelMessage (question_command bob " best film? ")]
               (start_round world_voted).1))
  = Some "best film?"%string.
Proof.
  destruct (question_command_sets_the_question bob "   "
              (start_round world_voted).1) as (_ & _ & Hagain).
  rewrite (Hagain eq_refl eq_refl eq_refl " best film? "%string).
  reflexivity.
Defined.

(** * The bot *)

Lemma in_game_games i c g method b :
  games (in_game i c g method b).1
    = <[i := (c, game (method (session_world g b)).1)]> (games b) ∧
  bot_user (in_game i c g method b).1 = bot_user b.
Proof. unfold in_game. by destruct (method (session_world g b)). Qed.

Lemma games_ok_insert l i c g g' :
  games_ok l → l !! i = Some (c, g) → games_ok (<[i := (c, g')]> l).
Proof.
  intros [Htext Hnd] Hi. split.
  - apply Forall_insert; [done|]. apply (Forall_lookup_1 _ _ _ _ Htext Hi).
  - rewrite list_fmap_insert. simpl. rewrite list_insert_id; [done|].
    by rewrite list_lookup_fmap, Hi.
Qed.

Lemma games_ok_delete l i : games_ok l → games_ok (delete i l).
Proof.
  intros [Htext Hnd]. split; [by apply Forall_delete|].
  rewrite list_fmap_delete. eapply sublist_NoDup; [done|apply sublist_delete].
Qed.

Lemma game_in_no_text c b :
  games_ok (games b) → channel_kind c ≠ TextChannel → game_in c b = None.
Proof.
  intros [Htext _] Hkind. apply list_find_None.
  eapply Forall_impl; [exact Htext|]. intros [c' g] Hc'. simpl in *.
  unfold channel_eq. rewrite Hc'. by destruct (channel_kind c).
Qed.

Lemma bot_step_without_games ev b :
  games b = [] → bot_step ev b = (b, Ok tt).
Proof.
  intros Hnone. destruct ev as [msg|r]; simpl.
  - unfold on_message, game_in, game_of. rewrite Hnone. simpl.
    destruct (bool_decide _); [done|].
    destruct (startswith _ "!startgame "); [done|].
    destruct (startswith _ "!endgame"); by destruct (channel_kind (origin msg)).
  - unfold on_raw_reaction_add. rewrite Hnone. simpl.
    by destruct (bool_decide _).
Qed.

(** X17: a bot that has no game never gets one: [on_message] answers the
    command [!startgame] by making the coroutine of [start_game] without
    awaiting it, so whatever messages and reactions arrive, the bot stays
    exactly as it is and nothing is raised. *)
Theorem bot_never_starts_a_game evs b :
  games b = [] →
  bot_run evs b = b ∧ ∀ ev, bot_step ev b = (b, Ok tt).
Proof.
  intros Hnone. split; [|intros ev; by apply bot_step_without_games].
  induction evs as [|ev evs IH]; simpl; [done|].
  by rewrite bot_step_without_games.
Qed.

Lemma bot_never_starts_a_game_witness :
  bot_run [MessageReceived (in_channel lobby alice "!startgame now" [alice; bob]);
           MessageReceived (in_channel lobby alice "!nextround" [])] new_bot
    = new_bot.
Proof.
  destruct (bot_never_starts_a_game
              [MessageReceived (in_channel lobby alice "!startgame now" [alice; bob]);
               MessageReceived (in_channel lobby alice "!nextround" [])]
              new_bot) as [Hrun _].
  - reflexivity.
  - exact Hrun.
Defined.

Lemma in_game_touches_one i c g method b :
  games b !! i = Some (c, g) →
  rtc game_step g (game (method (session_world g b)).1) →
  ∃ g', games (in_game i c g method b).1 = <[i := (c, g')]> (games b) ∧
        rtc game_step g g'.
Proof.
  intros Hi Hsteps. destruct (in_game_games i c g method b) as [-> _]. eauto.
Qed.

(** X18: a message or a reaction changes at most one game, and that one by
    the elementary changes of a session, or ([!endgame]) takes one game out
    of the list; it never changes the channel of a game, so the games stay in
    text channels, one to a channel. *)
Theorem bot_event_touches_one_game ev b :
  games_ok (games b) →
  let b' := (bot_step ev b).1 in
  games_ok (games b') ∧
  bot_user b' = bot_user b ∧
  (games b' = games b ∨
   (∃ i c g g', games b !! i = Some (c, g) ∧
                games b' = <[i := (c, g')]> (games b) ∧ rtc game_step g g') ∨
   (∃ i, is_Some (games b !! i) ∧ games b' = delete i (games b))).
Proof.
  intros Hok.
  assert (∀ i c g method,
            games b !! i = Some (c, g) →
            rtc game_step g (game (method (session_world g b)).1) →
            let b' := (in_game i c g method b).1 in
            games_ok (games b') ∧ bot_user b' = bot_user b ∧
            (games b' = games b ∨
             (∃ i c g g', games b !! i = Some (c, g) ∧
                games b' = <[i := (c, g')]> (games b) ∧ rtc game_step g g') ∨
             (∃ i, is_Some (games b !! i) ∧ games b' = delete i (games b))))
    as Hin.
  { intros i c g method Hi Hsteps. simpl.
    destruct (in_game_games i c g method b) as [Hg Hu]. rewrite Hg, Hu.
    split_and!; [by eapply games_ok_insert|done|].
    right; left. by exists i, c, g, (game (method (session_world g b)).1). }
  destruct ev as [msg|r]; simpl.
  - unfold on_message.
    destruct (bool_decide _); [by split_and!; auto|].
    destruct (startswith _ "!startgame "); [by split_and!; auto|].
    destruct (if startswith _ "!endgame" then _ else _)
      as [[i [c g]]|] eqn:Hend.
    { destruct (startswith _ "!endgame"); [|done].
      apply list_find_Some in Hend as (Hi & _). simpl.
      split_and!; [by apply games_ok_delete|done|].
      right; right. exists i. split; [eauto|done]. }
    destruct (game_in (origin msg) b) as [[i [c g]]|] eqn:Hgame.
    { apply list_find_Some in Hgame as (Hi & _).
      apply Hin; [done|apply (handle_channel_message_steps _ (session_world g b))]. }
    destruct (channel_kind (origin msg)); try (by split_and!; auto).
    destruct (game_of recipient b) as [[i [c g]]|] eqn:Huser;
      [|by split_and!; auto].
    apply list_find_Some in Huser as (Hi & _).
    apply Hin; [done|apply (handle_player_message_steps _ (session_world g b))].
  - unfold on_raw_reaction_add.
    destruct (bool_decide _); [by split_and!; auto|].
    destruct (list_find _ _) as [[i [c g]]|] eqn:Hgame;
      [|by split_and!; auto].
    apply list_find_Some in Hgame as (Hi & _).
    apply Hin; [done|apply (handle_reaction_steps _ (session_world g b))].
Qed.

Lemma bot_event_touches_one_game_witness :
  games_ok
    (games (bot_step (MessageReceived (in_channel lobby bob "!endgame" []))
              bot_with_game).1).
Proof.
  destruct (bot_event_touches_one_game
              (MessageReceived (in_channel lobby bob "!endgame" []))
              bot_with_game) as [Hok _].
  - split.
    + repeat constructor.
    + vm_compute. apply NoDup_singleton.
  - exact Hok.
Defined.

Lemma game_in_None_fresh c b :
  games_ok (games b) → channel_kind c = TextChannel → game_in c b = None →
  channel_id c ∉ (fun cg => channel_id cg.1) <$> games b.
Proof.
  intros [Htext _] Hkind Hnone Hin.
  apply list_elem_of_fmap in Hin as ([c' g] & Hid & Hin). simpl in Hid.
  apply list_find_None in Hnone.
  rewrite Forall_forall in Hnone, Htext.
  apply (Hnone _ Hin). pose proof (Htext _ Hin) as Hc'. simpl in *.
  unfold channel_eq. rewrite Hkind, Hc', Hid. simpl. apply Nat.eqb_refl.
Qed.

Lemma new_game_players ms w :
  game w = new_game →
  (add_players ms w).2 = Ok tt ∧
  players (game (add_players ms w).1) = distinct_in_order ms ∧
  question_setter (game (add_players ms w).1)
    = if decide (2 <= length (distinct_in_order ms))%nat
      then distinct_in_order ms !! 0%nat else None.
Proof.
  intros Hnew.
  assert (players (joined ms (game w)) = distinct_in_order ms) as Hps.
  { rewrite joined_players, Hnew. simpl. rewrite newcomers_distinct.
    induction (distinct_in_order ms) as [|q l IHl]; [done|].
    rewrite filter_cons_True by (by intros ?%elem_of_nil). by rewrite IHl. }
  assert (setter_index (joined ms (game w)) = -1 ∧
          question_setter (joined ms (game w)) = None) as [Hidx Hsetter].
  { destruct (joined_frame ms (game w)) as (-> & -> & _). by rewrite Hnew. }
  split.
  { apply add_players_ok. rewrite Hnew. apply session_inv_new. }
  rewrite add_players_players, <- joined_players, Hps. split; [done|].
  rewrite add_players_spec. unfold auto_start. rewrite Hsetter, Hps. simpl.
  destruct (decide (2 <= length (distinct_in_order ms))%nat) as [Hlen|Hlen].
  - destruct (Z.geb_spec (len (distinct_in_order ms)) 2) as [_|Hlt];
      [|unfold len in Hlt; lia].
    destruct (distinct_in_order ms) as [|p l] eqn:Hd; [simpl in Hlen; lia|].
    rewrite (start_round_starts _ p); [done|done|].
    simpl. unfold next_index. rewrite Hidx, Hps.
    assert (0 < len (p :: l)) as Hpos by (unfold len; simpl; lia).
    replace (-1 + 1) with 0 by done.
    destruct (Z.geb_spec 0 (len (p :: l))); [lia|].
    by rewrite py_index_in_range by lia.
  - destruct (Z.geb_spec (len (distinct_in_order ms)) 2) as [Hge|_];
      [unfold len in Hge; lia|]. done.
Qed.

(** X19: [start_game] does nothing outside a text channel; in a channel
    that has a game it only says so; otherwise it appends one new game for
    the channel, whose roster is the distinct mentioned players in the order
    of their first mention, and which has its first player as the setter
    when it has two players or more. The games stay in text channels, one to
    a channel. *)
Theorem start_game_adds_one_game msg b :
  games_ok (games b) →
  let b' := (start_game msg b).1 in
  games_ok (games b') ∧
  (channel_kind (origin msg) ≠ TextChannel → start_game msg b = (b, Ok tt)) ∧
  (channel_kind (origin msg) = TextChannel →
   ∀ i c g, game_in (origin msg) b = Some (i, (c, g)) →
     (start_game msg b).2 = Ok tt ∧ games b' = games b ∧
     posted b' = posted b ++ [GameAlreadyExists c]) ∧
  (channel_kind (origin msg) = TextChannel →
   game_in (origin msg) b = None →
   ∃ g, games b' = games b ++ [(origin msg, g)] ∧
        (start_game msg b).2 = Ok tt ∧
        players g = distinct_in_order (mentions (inbound msg)) ∧
        question_setter g =
          if decide (2 <= length (players g))%nat then players g !! 0%nat
          else None).
Proof.
  intros Hok b'. subst b'. unfold start_game.
  destruct (channel_kind (origin msg)) eqn:Hkind;
    [|by split_and!..].
  destruct (game_in (origin msg) b) as [[i [c g]]|] eqn:Hgame.
  { split_and!; try done. intros _ i' c' g' [= <- <- <-]. done. }
  set (b1 := {| bot_user := bot_user b;
                games := games b ++ [(origin msg, new_game)];
                posted := posted b;
                bot_next_message_id := bot_next_message_id b;
                bot_rng := bot_rng b; bot_rng_pos := bot_rng_pos b |}).
  destruct (new_game_players (mentions (inbound msg))
              (session_world new_game b1) eq_refl) as (Hres & Hps & Hsetter).
  set (g := game (add_players (mentions (inbound msg))
                    (session_world new_game b1)).1) in *.
  assert (games (in_game (length (games b)) (origin msg) new_game
                   (add_players (mentions (inbound msg))) b1).1
          = games b ++ [(origin msg, g)]) as Hgames.
  { destruct (in_game_games (length (games b)) (origin msg) new_game
                (add_players (mentions (inbound msg))) b1) as [-> _].
    simpl. rewrite insert_app_r_alt by done. by rewrite Nat.sub_diag. }
  split_and!; [|done|done|].
  - rewrite Hgames. destruct Hok as [Htext Hnd]. split.
    + apply Forall_app. split; [done|]. by repeat constructor.
    + rewrite fmap_app. apply NoDup_app. split_and!; [done| |apply NoDup_singleton].
      intros x Hx ->%list_elem_of_singleton. revert Hx.
      by apply game_in_None_fresh.
  - intros _ _. exists g. split_and!; [done| |done|by rewrite Hps].
    unfold in_game. fold g.
    by destruct (add_players (mentions (inbound msg))
                   (session_world new_game b1)) as [w r]; simpl in *.
Qed.

Lemma start_game_adds_one_game_witness :
  ∃ g, games (start_game (in_channel hall alice "!startgame"
                            [bob; carol; bob]) bot_with_game).1
         = games bot_with_game ++ [(hall, g)] ∧
       players g = [bob; carol] ∧ question_setter g = Some bob.
Proof.
  destruct (start_game_adds_one_game
              (in_channel hall alice "!startgame" [bob; carol; bob])
              bot_with_game) as (_ & _ & _ & Hnew).
  - split.
    + repeat constructor.
    + vm_compute. apply NoDup_singleton.
  - destruct Hnew as (g & Hgames & _ & Hps & Hsetter).
    + reflexivity.
    + reflexivity.
    + exists g. split; [exact Hgames|]. split.
      * rewrite Hps. reflexivity.
      * rewrite Hsetter, Hps. reflexivity.
Defined.

Lemma endgame_message a rest ms c b :
  a ≠ bot_user b →
  on_message (in_channel c a ("!endgame" ++ rest) ms) b =
    match game_in c b with
    | Some (i, (c', _)) => (end_game i c' b, Ok tt)
    | None =>
        match channel_kind c with
        | DMChannel user =>
            match game_of user b with
            | Some (i, (c', g)) =>
                in_game i c' g
                  (handle_player_message
                     {| author := a; content := "!endgame" ++ rest;
                        mentions := ms |}) b
            | None => (b, Ok tt)
            end
        | _ => (b, Ok tt)
        end
    end.
Proof.
  intros Ha. unfold on_message, in_channel, startswith. simpl.
  rewrite bool_decide_false by done.
  assert (String.prefix "" rest = true) as -> by (by destruct rest).
  destruct (game_in c b) as [[i [c' g]]|]; done.
Qed.

(** X20: [!endgame] from anybody but the bot, in a channel that has a game,
    takes that game out of the list and says thanks; the other games are
    kept, and the channel has no game afterwards. *)
Theorem endgame_removes_the_game a rest ms c b i c' g :
  games_ok (games b) → a ≠ bot_user b →
  game_in c b = Some (i, (c', g)) →
  on_message (in_channel c a ("!endgame" ++ rest) ms) b
    = (end_game i c' b, Ok tt) ∧
  games (end_game i c' b) = delete i (games b) ∧
  posted (end_game i c' b) = posted b ++ [ThanksForPlaying c'] ∧
  game_in c (end_game i c' b) = None.
Proof.
  intros [Htext Hnd] Ha Hgame. rewrite endgame_message, Hgame by done.
  split_and!; [done..|].
  apply list_find_Some in Hgame as (Hi & Heq & _). simpl in Heq.
  apply list_find_None, Forall_lookup. intros j [c'' g''] Hj Heq'.
  simpl in *.
  assert (∃ j', j' ≠ i ∧ games b !! j' = Some (c'', g'')) as (j' & Hne & Hj').
  { destruct (decide (j < i)%nat).
    - exists j. split; [lia|]. by rewrite list_lookup_delete_lt in Hj.
    - exists (S j). split; [lia|]. by rewrite list_lookup_delete_ge in Hj by lia. }
  apply Hne. symmetry.
  apply (NoDup_lookup _ i j' (channel_id c') Hnd).
  - by rewrite list_lookup_fmap, Hi.
  - rewrite list_lookup_fmap, Hj'. simpl. f_equal.
    unfold channel_eq in Heq, Heq'.
    apply andb_true_iff in Heq as [_ Heq], Heq' as [_ Heq'].
    apply Nat.eqb_eq in Heq, Heq'. congruence.
Qed.

Lemma endgame_removes_the_game_witness :
  games (on_message (in_channel lobby carol "!endgame please" [])
           bot_with_game).1 = [].
Proof.
  destruct (endgame_removes_the_game carol " please" [] lobby bot_with_game
              0%nat lobby (game world_voting)) as (Hmsg & Hgames & _).
  - split.
    + repeat constructor.
    + vm_compute. apply NoDup_singleton.
  - discriminate.
  - reflexivity.
  - change ("!endgame please"%string) with ("!endgame" ++ " please")%string.
    rewrite Hmsg. exact Hgames.
Defined.

(** X21: a direct message from anybody but the bot, unless it starts with
    [!startgame ], goes to [handle_player_message] of the first game that has
    the channel's recipient in its roster, whatever its text; a later game
    with that player in its roster is left as it is. *)
Theorem private_message_reaches_the_first_game msg b user :
  games_ok (games b) →
  channel_kind (origin msg) = DMChannel user →
  author (inbound msg) ≠ bot_user b →
  startswith (content (inbound msg)) "!startgame " = false →
  on_message msg b =
    match game_of user b with
    | Some (i, (c, g)) => in_game i c g (handle_player_message (inbound msg)) b
    | None => (b, Ok tt)
    end ∧
  ∀ i cg j cg',
    game_of user b = Some (i, cg) →
    games b !! j = Some cg' → user ∈ players cg'.2 →
    (i <= j)%nat ∧ ((i < j)%nat → games (on_message msg b).1 !! j = Some cg').
Proof.
  intros Hok Hkind Ha Hstart.
  assert (game_in (origin msg) b = None) as Hnone.
  { apply game_in_no_text; [done|]. by rewrite Hkind. }
  assert (on_message msg b =
            match game_of user b with
            | Some (i, (c, g)) =>
                in_game i c g (handle_player_message (inbound msg)) b
            | None => (b, Ok tt)
            end) as Hroute.
  { unfold on_message. rewrite bool_decide_false by done.
    rewrite Hstart, Hnone, Hkind.
    by destruct (startswith _ "!endgame"). }
  split; [done|].
  intros i [c g] j cg' Hfind Hj Hin. rewrite Hroute, Hfind.
  apply list_find_Some in Hfind as (Hi & _ & Hleast).
  assert (i <= j)%nat as Hle.
  { destruct (decide (i <= j)%nat); [done|].
    destruct (Hleast j cg' Hj); [lia|done]. }
  split; [done|]. intros Hlt.
  destruct (in_game_games i c g (handle_player_message (inbound msg)) b)
    as [-> _].
  rewrite list_lookup_insert_ne by lia. done.
Qed.

Lemma private_message_reaches_the_first_game_witness :
  games (on_message (in_channel (dm_with bob) bob "!endgame" [])
           bot_with_two_games).1 !! 1%nat
    = Some (hall, game world_asked).
Proof.
  destruct (private_message_reaches_the_first_game
              (in_channel (dm_with bob) bob "!endgame" [])
              bot_with_two_games bob) as [_ Hlater].
  - split.
    + repeat constructor.
    + vm_compute. apply NoDup_cons. split; [|apply NoDup_singleton].
      intros Hin%list_elem_of_singleton. discriminate Hin.
  - reflexivity.
  - discriminate.
  - reflexivity.
  - destruct (Hlater 0%nat (lobby, game world_asked) 1%nat
                (hall, game world_asked)) as [_ Hkept].
    + vm_compute. reflexivity.
    + reflexivity.
    + vm_compute. apply list_elem_of_further, list_elem_of_here.
    + apply Hkept. lia.
Defined.

(** * The rotation after a failed start *)

Example rounds_after_failed_start_setters :
  let w := run rounds_after_failed_start (new_world zero_draws) in
  players (game w) = [alice; bob] ∧
  setters_prompted (sent w) = [bob; alice; bob] ∧
  raised rounds_after_failed_start (new_world zero_draws) = [IndexError].
Proof. vm_compute. done. Qed.

Lemma newcomers_nil ps : newcomers [] ps = distinct_in_order ps.
Proof.
  rewrite newcomers_distinct.
  induction (distinct_in_order ps) as [|q l IHl]; [done|].
  rewrite filter_cons_True by (by intros ?%elem_of_nil). by rewrite IHl.
Qed.

Lemma distinct_in_order_NoDup l : NoDup (distinct_in_order l).
Proof.
  induction l as [|p l IH]; simpl; [apply NoDup_nil_2|].
  apply NoDup_cons. split.
  - rewrite list_elem_of_filter. by intros [? _].
  - by apply NoDup_filter.
Qed.

(** C4: the rotation does not always start at the first roster member. A
    [!nextround] that reaches a new session before anybody has joined fails
    with IndexError, but has moved the cursor from -1 to 0 already; when two
    or more players join after that, the round the join starts has the
    second roster member as the setter, not the first, and the rotation goes
    on from there. *)
Theorem failed_start_shifts_the_rotation w m ps :
  fresh w → sent w = [] →
  startswith (content m) "!nextround" = true →
  (2 <= length (distinct_in_order ps))%nat →
  let w' := run [ChannelMessage m; Join ps] w in
  raised [ChannelMessage m; Join ps] w = [IndexError] ∧
  players (game w') = distinct_in_order ps ∧
  setter_index (game w') = 1 ∧
  ∃ first second,
    players (game w') !! 0%nat = Some first ∧
    players (game w') !! 1%nat = Some second ∧
    first ≠ second ∧
    question_setter (game w') = Some second ∧
    setters_prompted (sent w') = [second].
Proof.
  intros Hfresh Hsent Hcmd Hlen w'.
  assert (handle_channel_message m w = start_round w) as Hroute.
  { unfold handle_channel_message. by rewrite Hcmd. }
  assert (start_round w =
            (with_game (set_setter_index 0 new_game) w, Raise IndexError))
    as Hfail.
  { unfold fresh in Hfresh.
    rewrite start_round_raises by (rewrite Hfresh; done).
    by rewrite Hfresh. }
  set (w1 := with_game (set_setter_index 0 new_game) w) in *.
  assert (players (joined ps (game w1)) = distinct_in_order ps) as Hps.
  { rewrite joined_players. simpl. apply newcomers_nil. }
  assert (setter_index (joined ps (game w1)) = 0) as Hidx
    by (by rewrite (proj1 (joined_frame ps (game w1)))).
  assert (question_setter (joined ps (game w1)) = None) as Hsetter
    by (by rewrite (proj1 (proj2 (joined_frame ps (game w1))))).
  destruct (distinct_in_order ps) as [|first [|second rest]] eqn:Hd;
    [simpl in Hlen; lia..|].
  assert (first ≠ second) as Hne.
  { pose proof (distinct_in_order_NoDup ps) as Hnd. rewrite Hd in Hnd.
    apply NoDup_cons in Hnd as [Hnotin _]. intros ->. apply Hnotin.
    apply list_elem_of_here. }
  assert (next_index (joined ps (game w1)) = 1) as Hnext.
  { unfold next_index. rewrite Hidx, Hps.
    destruct (Z.geb_spec (0 + 1) (len (first :: second :: rest)))
      as [Hge|Hlt]; [|done].
    unfold len in Hge. simpl length in Hge. lia. }
  assert (py_index (players (joined ps (game w1)))
            (next_index (joined ps (game w1))) = Some second) as Hpick.
  { rewrite Hnext, Hps. rewrite py_index_in_range; [done|].
    unfold len. simpl length. lia. }
  assert (add_players ps w1 =
            ({| game := round_reset second (joined ps (game w1));
                sent := sent (announce_joined ps w1) ++
                        [ChannelSend (next_message_id (announce_joined ps w1))
                           (SetYourQuestion second)];
                next_message_id := S (next_message_id (announce_joined ps w1));
                rng := rng w1; rng_pos := rng_pos w1 |}, Ok tt)) as Hjoin.
  { rewrite add_players_spec. unfold auto_start. rewrite Hsetter, Hps.
    assert ((len (first :: second :: rest) >=? 2) = true) as ->
      by (unfold len; simpl; apply Z.geb_le; lia).
    rewrite bool_decide_false by (by intros [? ?]). simpl andb. cbv iota.
    apply (start_round_starts (announce_joined ps w1) second);
      [exact Hsetter | exact Hpick]. }
  assert (w' = (add_players ps w1).1) as Hw'.
  { subst w'. simpl. unfold exec. simpl. by rewrite Hroute, Hfail. }
  split_and!.
  - simpl. rewrite Hroute, Hfail, Hjoin. done.
  - rewrite Hw', Hjoin. simpl. done.
  - rewrite Hw', Hjoin. cbn [fst game round_reset setter_index]. exact Hnext.
  - exists first, second. rewrite Hw', Hjoin. cbn [fst game round_reset players
      question_setter sent announce_joined]. rewrite Hps.
    split_and!; try done.
    rewrite !setters_prompted_app. subst w1. cbn [sent with_game].
    rewrite Hsent. done.
Qed.

Lemma failed_start_shifts_the_rotation_witness :
  question_setter
    (game (run [ChannelMessage (says alice "!nextround"); Join [alice; bob]]
               (new_world zero_draws)))
    = Some bob.
Proof.
  destruct (failed_start_shifts_the_rotation (new_world zero_draws)
              (says alice "!nextround") [alice; bob])
    as (_ & Hps & _ & first & second & _ & Hsecond & _ & Hsetter & _).
  - reflexivity.
  - reflexivity.
  - reflexivity.
  - vm_compute. lia.
  - rewrite Hsetter. rewrite Hps in Hsecond. vm_compute in Hsecond.
    injection Hsecond as <-. reflexivity.
Defined.

(** * The first round *)















